(** * LaPy [Heat.py]: heat kernel and heat diffusion

    A shallow embedding of [lapy/Heat.py] and of the part of NumPy it
    relies on (basic and integer-array indexing, slicing, broadcasting
    multiplication, [matmul]), followed by the properties of [diagonal],
    [kernel] and [diffusion].

    Array entries are real numbers: double-precision floats are idealised
    as [R], so every statement about values is a statement of exact
    arithmetic.  Shapes, index normalisation, slice clamping, broadcasting
    and the exceptions raised are modelled as NumPy has them.  Where
    overflow, underflow or rounding of doubles decide a property,
    [diagonal] is also read over binary64 floats in [F64], and the
    properties of values are stated within the range in which doubles
    neither overflow nor produce nan. *)

From Stdlib Require Import String Reals Lra Lia ZArith Bool List Floats.
Import ListNotations.

(** ** Exceptions and results *)

(** The exceptions the modelled code can raise.  [IndexError] and
    [ValueError] are NumPy's; [ConfigurationError] is what the optional
    import raises; [AttributeError] is Python's; [FactorizationError] and
    [AssemblyError] are left to the external providers. *)
Inductive exn : Type :=
| IndexError
| ValueError
| AttributeError
| ConfigurationError
| FactorizationError
| AssemblyError.

Inductive result (A : Type) : Type :=
| Ok (a : A)
| Raise (e : exn).

Arguments Ok {A} a.
Arguments Raise {A} e.

Definition rbind {A B : Type} (r : result A) (k : A -> result B) : result B :=
  match r with
  | Ok a => k a
  | Raise e => Raise e
  end.

Declare Scope result_scope.
Delimit Scope result_scope with result.
Notation "x <- e ;; k" := (rbind e (fun x => k))
  (at level 61, e at next level, right associativity) : result_scope.

Fixpoint mapM {A B : Type} (f : A -> result B) (l : list A) : result (list B) :=
  match l with
  | [] => Ok []
  | a :: l' =>
      rbind (f a) (fun b => rbind (mapM f l') (fun bs => Ok (b :: bs)))
  end.

(** ** The NumPy fragment *)

Module Np.

Local Open Scope R_scope.
Local Open Scope result_scope.

(** Arrays of dimension 0, 1 and 2.  A 2-d array carries its column count,
    so that the shapes (0, c) and (r, 0) are told apart. *)
Inductive ndarray : Type :=
| Scalar (a : R)
| Arr1 (v : list R)
| Arr2 (ncols : nat) (rows : list (list R)).

Definition shape (a : ndarray) : list nat :=
  match a with
  | Scalar _ => []
  | Arr1 v => [length v]
  | Arr2 c rows => [length rows; c]
  end.

Definition wf (a : ndarray) : Prop :=
  match a with
  | Arr2 c rows => Forall (fun r => length r = c) rows
  | _ => True
  end.

Definition get1 (v : list R) (j : nat) : R := nth j v 0.
Definition get2 (rows : list (list R)) (i j : nat) : R := nth j (nth i rows []) 0.

Definition tabulate1 (n : nat) (f : nat -> R) : list R := map f (seq 0 n).
Definition tabulate2 (r c : nat) (f : nat -> nat -> R) : list (list R) :=
  map (fun i => tabulate1 c (f i)) (seq 0 r).

(** [sum_upto n f] is f 0 + ... + f (n-1). *)
Fixpoint sum_upto (n : nat) (f : nat -> R) : R :=
  match n with
  | O => 0
  | S k => sum_upto k f + f k
  end.

(** A row vector (shape (1, T)) and a column vector (shape (N, 1)). *)
Definition row_vector (v : list R) : ndarray := Arr2 (length v) [v].
Definition col_vector (v : list R) : ndarray := Arr2 1 (map (fun a => [a]) v).

(** *** Indexing *)

(** An integer index: a Python int, or a 1-d array of integers. *)
Inductive index : Type :=
| IdxInt (i : Z)
| IdxArr (l : list Z).

(** An index [i] into an axis of length [len]: negative indices count from
    the end, anything outside [-len, len) raises [IndexError]. *)
Definition norm_index (len : nat) (i : Z) : result nat :=
  if ((0 <=? i) && (i <? Z.of_nat len))%Z then Ok (Z.to_nat i)
  else if ((- Z.of_nat len <=? i) && (i <? 0))%Z then Ok (Z.to_nat (i + Z.of_nat len))
  else Raise IndexError.

(** The stop of the slice [0:n] on an axis of length [len]: a negative [n]
    counts from the end, and the stop is clamped to [0, len]. *)
Definition slice_stop (len : nat) (n : Z) : nat :=
  if (n <? 0)%Z then Z.to_nat (Z.max 0 (Z.of_nat len + n))
  else Z.to_nat (Z.min n (Z.of_nat len)).

Definition slice_to {A : Type} (n : Z) (l : list A) : list A :=
  firstn (slice_stop (length l) n) l.

(** [a[0:n]]: a slice of the first axis. *)
Definition getitem_slice (a : ndarray) (n : Z) : result ndarray :=
  match a with
  | Scalar _ => Raise IndexError
  | Arr1 v => Ok (Arr1 (slice_to n v))
  | Arr2 c rows => Ok (Arr2 c (slice_to n rows))
  end.

(** [a[x, 0:n]]: rows picked by [x], columns sliced. *)
Definition getitem_rows_slice (a : ndarray) (x : index) (n : Z) : result ndarray :=
  match a with
  | Arr2 c rows =>
      match x with
      | IdxInt i =>
          r <- norm_index (length rows) i ;;
          Ok (Arr1 (firstn (slice_stop c n) (nth r rows [])))
      | IdxArr l =>
          rs <- mapM (fun i => r <- norm_index (length rows) i ;;
                               Ok (firstn (slice_stop c n) (nth r rows []))) l ;;
          Ok (Arr2 (slice_stop c n) rs)
      end
  | _ => Raise IndexError
  end.

(** [a[:, 0:n]]: all rows, columns sliced. *)
Definition getitem_all_slice (a : ndarray) (n : Z) : result ndarray :=
  match a with
  | Arr2 c rows => Ok (Arr2 (slice_stop c n) (map (firstn (slice_stop c n)) rows))
  | _ => Raise IndexError
  end.

(** *** Elementwise operations *)

Definition map_arr (f : R -> R) (a : ndarray) : ndarray :=
  match a with
  | Scalar x => Scalar (f x)
  | Arr1 v => Arr1 (map f v)
  | Arr2 c rows => Arr2 c (map (map f) rows)
  end.

Definition negative : ndarray -> ndarray := map_arr Ropp.
Definition np_exp : ndarray -> ndarray := map_arr exp.

(** Broadcasting of one axis: equal lengths, or one of them is 1. *)
Definition bdim (a b : nat) : option nat :=
  if a =? b then Some a
  else if a =? 1 then Some b
  else if b =? 1 then Some a
  else None.

(** The position read on an axis of length [d] for output position [i]. *)
Definition bidx (d i : nat) : nat := if d =? 1 then 0%nat else i.

(** [a * b] with broadcasting: shapes are aligned on the last axis. *)
Definition multiply (a b : ndarray) : result ndarray :=
  match a, b with
  | Scalar x, _ => Ok (map_arr (fun y => x * y) b)
  | _, Scalar y => Ok (map_arr (fun x => x * y) a)
  | Arr1 u, Arr1 w =>
      match bdim (length u) (length w) with
      | Some d =>
          Ok (Arr1 (tabulate1 d (fun k =>
                get1 u (bidx (length u) k) * get1 w (bidx (length w) k))))
      | None => Raise ValueError
      end
  | Arr2 c rows, Arr1 w =>
      match bdim c (length w) with
      | Some d =>
          Ok (Arr2 d (tabulate2 (length rows) d (fun i k =>
                get2 rows i (bidx c k) * get1 w (bidx (length w) k))))
      | None => Raise ValueError
      end
  | Arr1 u, Arr2 c rows =>
      match bdim (length u) c with
      | Some d =>
          Ok (Arr2 d (tabulate2 (length rows) d (fun i k =>
                get1 u (bidx (length u) k) * get2 rows i (bidx c k))))
      | None => Raise ValueError
      end
  | Arr2 c1 r1, Arr2 c2 r2 =>
      match bdim (length r1) (length r2), bdim c1 c2 with
      | Some r, Some d =>
          Ok (Arr2 d (tabulate2 r d (fun i k =>
                get2 r1 (bidx (length r1) i) (bidx c1 k)
                * get2 r2 (bidx (length r2) i) (bidx c2 k))))
      | _, _ => Raise ValueError
      end
  end.

(** *** Matrix product *)

(** [np.matmul]: scalars are refused; a 1-d operand is a row vector on the
    left and a column vector on the right, and that axis is dropped from
    the result; the contracted axes must have the same length. *)
Definition matmul (a b : ndarray) : result ndarray :=
  match a, b with
  | Scalar _, _ | _, Scalar _ => Raise ValueError
  | Arr1 u, Arr1 w =>
      if length u =? length w
      then Ok (Scalar (sum_upto (length u) (fun j => get1 u j * get1 w j)))
      else Raise ValueError
  | Arr2 c rows, Arr1 w =>
      if c =? length w
      then Ok (Arr1 (tabulate1 (length rows) (fun i =>
                 sum_upto c (fun j => get2 rows i j * get1 w j))))
      else Raise ValueError
  | Arr1 u, Arr2 c rows =>
      if length u =? length rows
      then Ok (Arr1 (tabulate1 c (fun k =>
                 sum_upto (length u) (fun j => get1 u j * get2 rows j k))))
      else Raise ValueError
  | Arr2 c1 r1, Arr2 c2 r2 =>
      if c1 =? length r2
      then Ok (Arr2 c2 (tabulate2 (length r1) c2 (fun i k =>
                 sum_upto c1 (fun j => get2 r1 i j * get2 r2 j k))))
      else Raise ValueError
  end.

(** The length of the first axis, [len(a)]; 0 stands in for a scalar,
    which has none. *)
Definition len0 (a : ndarray) : nat :=
  match a with
  | Scalar _ => 0
  | Arr1 v => length v
  | Arr2 _ rows => length rows
  end.

(** The exceptions of indexing, broadcasting and [matmul]. *)
Definition shape_error (e : exn) : Prop := e = IndexError \/ e = ValueError.

(** A property of every entry of an array. *)
Definition all_entries (P : R -> Prop) (a : ndarray) : Prop :=
  match a with
  | Scalar x => P x
  | Arr1 v => Forall P v
  | Arr2 _ rows => Forall (Forall P) rows
  end.

End Np.

(** ** The kernel evaluator: [diagonal] and [kernel] *)

Module Heat.

Import Np.
Local Open Scope R_scope.
Local Open Scope result_scope.

(** [h = np.matmul(evecs[x, 0:n] * evecs[x, 0:n],
                   np.exp(-np.matmul(evals[0:n], t)))] *)
Definition diagonal (t : ndarray) (x : index) (evecs evals : ndarray) (n : Z)
  : result ndarray :=
  ex1 <- getitem_rows_slice evecs x n ;;
  ex2 <- getitem_rows_slice evecs x n ;;
  sq <- multiply ex1 ex2 ;;
  ev <- getitem_slice evals n ;;
  et <- matmul ev t ;;
  matmul sq (np_exp (negative et)).

(** [h = np.matmul(evecs[:, 0:n],
                   (np.exp(np.matmul(-evals[0:n], t)) * evecs[vfix, 0:n]))] *)
Definition kernel (t : ndarray) (vfix : index) (evecs evals : ndarray) (n : Z)
  : result ndarray :=
  ea <- getitem_all_slice evecs n ;;
  ev <- getitem_slice evals n ;;
  et <- matmul (negative ev) t ;;
  ef <- getitem_rows_slice evecs vfix n ;;
  w <- multiply (np_exp et) ef ;;
  matmul ea w.

(** ** The diffusion solver *)

(** SciPy sparse matrices, by their shape and entries; the storage layout
    is not modelled. *)
Record spmatrix : Type := {
  sp_nrows : nat;
  sp_ncols : nat;
  sp_rows : list (list R)
}.

(** [t * a] for a scalar [t]. *)
Definition sp_scale (t : R) (a : spmatrix) : spmatrix :=
  {| sp_nrows := sp_nrows a;
     sp_ncols := sp_ncols a;
     sp_rows := tabulate2 (sp_nrows a) (sp_ncols a)
                  (fun i k => t * get2 (sp_rows a) i k) |}.

(** [a + b]: sparse matrices do not broadcast, the shapes must agree. *)
Definition sp_add (a b : spmatrix) : result spmatrix :=
  if (sp_nrows a =? sp_nrows b) && (sp_ncols a =? sp_ncols b)
  then Ok {| sp_nrows := sp_nrows a;
             sp_ncols := sp_ncols a;
             sp_rows := tabulate2 (sp_nrows a) (sp_ncols a)
                          (fun i k => get2 (sp_rows a) i k + get2 (sp_rows b) i k) |}
  else Raise ValueError.

(** The product of a sparse matrix with a dense vector. *)
Definition sp_matvec (a : spmatrix) (x : list R) : list R :=
  tabulate1 (sp_nrows a)
    (fun i => sum_upto (sp_ncols a) (fun j => get2 (sp_rows a) i j * get1 x j)).

(** What [vids] may be: a Python int, a Python list of ints, or an array
    of integers. *)
Inductive array_like : Type :=
| PyInt (i : Z)
| PyList (l : list Z)
| IntArray (l : list Z).

Inductive dtype : Type := int64 | float64.

(** [np.array(vids)]: an empty Python list becomes an empty array of
    dtype float64. *)
Definition np_array (a : array_like) : dtype * index :=
  match a with
  | PyInt i => (int64, IdxInt i)
  | PyList [] => (float64, IdxArr [])
  | PyList l => (int64, IdxArr l)
  | IntArray l => (int64, IdxArr l)
  end.

Fixpoint set_at (k : nat) (a : R) (l : list R) : list R :=
  match l, k with
  | [], _ => []
  | _ :: l', O => a :: l'
  | b :: l', S k' => b :: set_at k' a l'
  end.

(** [b[ix] = a] for a 1-d array [b]: only integer arrays index; every
    index is checked before anything is written. *)
Definition setitem (b : list R) (ix : dtype * index) (a : R) : result (list R) :=
  match ix with
  | (float64, _) => Raise IndexError
  | (int64, IdxInt i) =>
      k <- norm_index (length b) i ;; Ok (set_at k a b)
  | (int64, IdxArr l) =>
      ks <- mapM (norm_index (length b)) l ;;
      Ok (fold_left (fun acc k => set_at k a acc) ks b)
  end.

Definition np_zeros (n : nat) : list R := repeat 0 n.

(** A factorisation object: it solves for a right-hand side. *)
Record Factor : Type := { solve : list R -> result (list R) }.

(** The optional [sksparse] module, by the one function used here. *)
Record Sksparse : Type := { cholesky : spmatrix -> result Factor }.

(** The object [Solver(geometry, lump, aniso)] returns. *)
Record Fem : Type := { mass : spmatrix; stiffness : spmatrix }.

(** A mesh, by what [diffusion] reads of it. *)
Record Geometry : Type := {
  v : list (list R);
  avg_edge_length : R
}.

(** Calls that leave the function, in the order they are made. *)
Inductive event : Type :=
| EvImportOptional (name : string)
| EvSolver (lump : bool)
| EvAvgEdgeLength
| EvPrint (s : string)
| EvCholesky (hmat : spmatrix)
| EvCholeskySolve (b : list R)
| EvSplu (hmat : spmatrix)
| EvLuSolve (b : list R).

(** Computations that log their outside calls and may raise. *)
Definition M (A : Type) : Type := list event -> list event * result A.

Definition ret {A : Type} (a : A) : M A := fun tr => (tr, Ok a).

Definition bind {A B : Type} (c : M A) (k : A -> M B) : M B :=
  fun tr =>
    match c tr with
    | (tr', Ok a) => k a tr'
    | (tr', Raise e) => (tr', Raise e)
    end.

Definition lift {A : Type} (r : result A) : M A := fun tr => (tr, r).

(** An outside call: logged, then its outcome. *)
Definition call {A : Type} (e : event) (r : result A) : M A :=
  fun tr => (tr ++ [e], r).

Declare Scope M_scope.
Delimit Scope M_scope with M.
Notation "x <-- c ;; k" := (bind c (fun x => k))
  (at level 61, c at next level, right associativity) : M_scope.
Notation "c ;;; k" := (bind c (fun _ => k))
  (at level 61, right associativity) : M_scope.

Definition print (s : string) : M unit := call (EvPrint s) (Ok tt).

Section Diffusion.

(** The anisotropy setting, passed through to the assembly. *)
Variable Aniso : Type.

(** The optional dependencies installed, here [sksparse] at most. *)
Variable installed : string -> option Sksparse.

(** The matrix assembly, [Solver(geometry, lump=, aniso=)]. *)
Variable Solver : Geometry -> bool -> option Aniso -> result Fem.

(** [scipy.sparse.linalg.splu]. *)
Variable splu : spmatrix -> result Factor.

(** [hmat.getformat()]. *)
Variable getformat : spmatrix -> string.

(** The rounding of a double to single precision. *)
Variable float32 : R -> R.

(** Modelled from the spec: [import_optional_dependency] of
    [utils/_imports.py], which is not part of the sources at hand.  With
    [raise_error] set, a missing capability raises [ConfigurationError];
    otherwise the module, or [None], is returned. *)
Definition import_optional_dependency (name : string) (raise_error : bool)
  : M (option Sksparse) :=
  call (EvImportOptional name)
    (match installed name with
     | Some md => Ok (Some md)
     | None => if raise_error then Raise ConfigurationError else Ok None
     end).

Definition np_float32 (b : list R) : list R := map float32 b.

Local Open Scope M_scope.
Local Open Scope string_scope.

Definition diffusion (geometry : Geometry) (vids : array_like) (m : R)
    (aniso : option Aniso) (use_cholmod : bool) : M (list R) :=
  sksparse <-- (if use_cholmod
                then import_optional_dependency "sksparse" true
                else ret None) ;;
  let nv := length (v geometry) in
  fem <-- call (EvSolver true) (Solver geometry true aniso) ;;
  (* time of heat evolution *)
  ael <-- call EvAvgEdgeLength (Ok (avg_edge_length geometry)) ;;
  let t := (m * ael ^ 2)%R in
  (* backward Euler matrix *)
  hmat <-- lift (sp_add (mass fem) (sp_scale t (stiffness fem))) ;;
  (* set initial heat *)
  let b0 := np_zeros nv in
  b0 <-- lift (setitem b0 (np_array vids) 1%R) ;;
  (* solve H x = b0 *)
  print ("Matrix Format now:  " ++ getformat hmat) ;;;
  if use_cholmod then
    print "Solver: Cholesky decomposition from scikit-sparse cholmod ..." ;;;
    chol <-- (match sksparse with
              | Some md => call (EvCholesky hmat) (cholesky md hmat)
              | None => lift (Raise AttributeError)
              end) ;;
    call (EvCholeskySolve b0) (solve chol b0)
  else
    print "Solver: spsolve (LU decomposition) ..." ;;;
    lu <-- call (EvSplu hmat) (splu hmat) ;;
    call (EvLuSolve (np_float32 b0)) (solve lu (np_float32 b0)).

End Diffusion.

(** How often a trace calls the matrix assembly. *)
Definition solver_calls (tr : list event) : nat :=
  List.length (filter (fun e => match e with EvSolver _ => true | _ => false end) tr).

(** How often a trace calls [splu]. *)
Definition splu_calls (tr : list event) : nat :=
  List.length (filter (fun e => match e with EvSplu _ => true | _ => false end) tr).

(** How often a trace calls the Cholesky factorisation. *)
Definition cholesky_calls (tr : list event) : nat :=
  List.length (filter (fun e => match e with EvCholesky _ => true | _ => false end) tr).

(** The contract of a factorisation of [hmat]: what it returns for a
    right-hand side solves the system. *)
Definition factor_of (hmat : spmatrix) (f : Factor) : Prop :=
  forall b x, solve f b = Ok x ->
    List.length x = sp_nrows hmat /\ sp_matvec hmat x = b.

(** The factorisation [diffusion] uses: the optional module's Cholesky when
    asked for, [splu] otherwise. *)
Definition factorize (installed : string -> option Sksparse)
    (splu : spmatrix -> result Factor) (use_cholmod : bool)
    (hmat : spmatrix) : result Factor :=
  if use_cholmod then
    match installed "sksparse"%string with
    | Some md => cholesky md hmat
    | None => Raise ConfigurationError
    end
  else splu hmat.

(** *** A mesh of one vertex, for examples

    Mass [[2]], stiffness [[1]]; the factorisation of a 1 x 1 matrix [[h]]
    divides by h and refuses h = 0. *)
Module Example.

Definition mesh (ael : R) : Geometry :=
  {| v := [[0; 0; 0]]; avg_edge_length := ael |}.

Definition fem1 : Fem :=
  {| mass := {| sp_nrows := 1; sp_ncols := 1; sp_rows := [[2]] |};
     stiffness := {| sp_nrows := 1; sp_ncols := 1; sp_rows := [[1]] |} |}.

Definition Solver1 (g : Geometry) (lump : bool) (aniso : option unit)
  : result Fem := Ok fem1.

Definition factor1 (hmat : spmatrix) : result Factor :=
  match sp_nrows hmat, sp_ncols hmat with
  | 1%nat, 1%nat =>
      if Req_dec_T (get2 (sp_rows hmat) 0 0) 0 then Raise FactorizationError
      else Ok {| solve := fun b =>
                   match b with
                   | [y] => Ok [y / get2 (sp_rows hmat) 0 0]
                   | _ => Raise ValueError
                   end |}
  | _, _ => Raise FactorizationError
  end.

Definition no_modules (name : string) : option Sksparse := None.

Definition with_sksparse (name : string) : option Sksparse :=
  if String.eqb name "sksparse" then Some {| cholesky := factor1 |} else None.

Definition format1 (hmat : spmatrix) : string := "csc"%string.

Definition exact (r : R) : R := r.

End Example.

End Heat.

(** ** [diagonal] over IEEE doubles

    The arrays of [Heat.py] hold binary64 floats.  Where rounding, overflow
    or underflow decide what a caller sees, [diagonal] is read here over
    the primitive floats, operation by operation as in [Np] and [Heat];
    indices, slices and broadcasting are those of [Np].  [np.exp] is a
    parameter: the exponential of the platform's mathematical library. *)

Module F64.

Local Open Scope float_scope.
Local Open Scope result_scope.

Inductive ndarray : Type :=
| Scalar (a : float)
| Arr1 (v : list float)
| Arr2 (ncols : nat) (rows : list (list float)).

Definition get1 (v : list float) (j : nat) : float := nth j v 0.
Definition get2 (rows : list (list float)) (i j : nat) : float :=
  nth j (nth i rows []) 0.

Definition tabulate1 (n : nat) (f : nat -> float) : list float := map f (seq 0 n).
Definition tabulate2 (r c : nat) (f : nat -> nat -> float) : list (list float) :=
  map (fun i => tabulate1 c (f i)) (seq 0 r).

(** The accumulation of [matmul], from 0 and in the order of the plain
    loop.  A BLAS kernel may group the terms otherwise; for sums of one or
    two terms the grouping cannot matter. *)
Fixpoint sum_upto (n : nat) (f : nat -> float) : float :=
  match n with
  | O => 0
  | S k => sum_upto k f + f k
  end.

Definition row_vector (v : list float) : ndarray := Arr2 (length v) [v].
Definition col_vector (v : list float) : ndarray := Arr2 1 (map (fun a => [a]) v).

(** [a[0:n]] *)
Definition getitem_slice (a : ndarray) (n : Z) : result ndarray :=
  match a with
  | Scalar _ => Raise IndexError
  | Arr1 v => Ok (Arr1 (Np.slice_to n v))
  | Arr2 c rows => Ok (Arr2 c (Np.slice_to n rows))
  end.

(** [a[x, 0:n]] *)
Definition getitem_rows_slice (a : ndarray) (x : Np.index) (n : Z) : result ndarray :=
  match a with
  | Arr2 c rows =>
      match x with
      | Np.IdxInt i =>
          r <- Np.norm_index (length rows) i ;;
          Ok (Arr1 (firstn (Np.slice_stop c n) (nth r rows [])))
      | Np.IdxArr l =>
          rs <- mapM (fun i => r <- Np.norm_index (length rows) i ;;
                               Ok (firstn (Np.slice_stop c n) (nth r rows []))) l ;;
          Ok (Arr2 (Np.slice_stop c n) rs)
      end
  | _ => Raise IndexError
  end.

Definition map_arr (f : float -> float) (a : ndarray) : ndarray :=
  match a with
  | Scalar x => Scalar (f x)
  | Arr1 v => Arr1 (map f v)
  | Arr2 c rows => Arr2 c (map (map f) rows)
  end.

Definition negative : ndarray -> ndarray := map_arr PrimFloat.opp.

(** [a * b] with broadcasting, each product rounded. *)
Definition multiply (a b : ndarray) : result ndarray :=
  match a, b with
  | Scalar x, _ => Ok (map_arr (fun y => x * y) b)
  | _, Scalar y => Ok (map_arr (fun x => x * y) a)
  | Arr1 u, Arr1 w =>
      match Np.bdim (length u) (length w) with
      | Some d =>
          Ok (Arr1 (tabulate1 d (fun k =>
                get1 u (Np.bidx (length u) k) * get1 w (Np.bidx (length w) k))))
      | None => Raise ValueError
      end
  | Arr2 c rows, Arr1 w =>
      match Np.bdim c (length w) with
      | Some d =>
          Ok (Arr2 d (tabulate2 (length rows) d (fun i k =>
                get2 rows i (Np.bidx c k) * get1 w (Np.bidx (length w) k))))
      | None => Raise ValueError
      end
  | Arr1 u, Arr2 c rows =>
      match Np.bdim (length u) c with
      | Some d =>
          Ok (Arr2 d (tabulate2 (length rows) d (fun i k =>
                get1 u (Np.bidx (length u) k) * get2 rows i (Np.bidx c k))))
      | None => Raise ValueError
      end
  | Arr2 c1 r1, Arr2 c2 r2 =>
      match Np.bdim (length r1) (length r2), Np.bdim c1 c2 with
      | Some r, Some d =>
          Ok (Arr2 d (tabulate2 r d (fun i k =>
                get2 r1 (Np.bidx (length r1) i) (Np.bidx c1 k)
                * get2 r2 (Np.bidx (length r2) i) (Np.bidx c2 k))))
      | _, _ => Raise ValueError
      end
  end.

(** [np.matmul], each product and each partial sum rounded. *)
Definition matmul (a b : ndarray) : result ndarray :=
  match a, b with
  | Scalar _, _ | _, Scalar _ => Raise ValueError
  | Arr1 u, Arr1 w =>
      if (length u =? length w)%nat
      then Ok (Scalar (sum_upto (length u) (fun j => get1 u j * get1 w j)))
      else Raise ValueError
  | Arr2 c rows, Arr1 w =>
      if (c =? length w)%nat
      then Ok (Arr1 (tabulate1 (length rows) (fun i =>
                 sum_upto c (fun j => get2 rows i j * get1 w j))))
      else Raise ValueError
  | Arr1 u, Arr2 c rows =>
      if (length u =? length rows)%nat
      then Ok (Arr1 (tabulate1 c (fun k =>
                 sum_upto (length u) (fun j => get1 u j * get2 rows j k))))
      else Raise ValueError
  | Arr2 c1 r1, Arr2 c2 r2 =>
      if (c1 =? length r2)%nat
      then Ok (Arr2 c2 (tabulate2 (length r1) c2 (fun i k =>
                 sum_upto c1 (fun j => get2 r1 i j * get2 r2 j k))))
      else Raise ValueError
  end.

Section Exp.

(** [np.exp] on one double. *)
Variable fexp : float -> float.

Definition np_exp : ndarray -> ndarray := map_arr fexp.

(** [h = np.matmul(evecs[x, 0:n] * evecs[x, 0:n],
                   np.exp(-np.matmul(evals[0:n], t)))] *)
Definition diagonal (t : ndarray) (x : Np.index) (evecs evals : ndarray) (n : Z)
  : result ndarray :=
  ex1 <- getitem_rows_slice evecs x n ;;
  ex2 <- getitem_rows_slice evecs x n ;;
  sq <- multiply ex1 ex2 ;;
  ev <- getitem_slice evals n ;;
  et <- matmul ev t ;;
  matmul sq (np_exp (negative et)).

End Exp.

(** *** A double-precision exponential, for examples

    It has the special cases of the exponential of doubles: nan for nan,
    +inf above the overflow threshold ln(DBL_MAX), 0 below the underflow
    threshold.  In between the value is computed by scaling and squaring,
    which is not the library's algorithm and need not agree with it to the
    last bit. *)
Fixpoint taylor (k : nat) (i term acc y : float) : float :=
  match k with
  | O => acc
  | S k' =>
      let term' := term * y / i in
      taylor k' (i + 1) term' (acc + term') y
  end.

Fixpoint square_n (k : nat) (p : float) : float :=
  match k with
  | O => p
  | S k' => square_n k' (p * p)
  end.

Definition exp64 (x : float) : float :=
  if is_nan x then nan
  else if 0x1.62e42fefa39efp+9 <? x then infinity
  else if x <? - 0x1.74910d52d3051p+9 then 0
  else square_n 10 (taylor 18 1 1 1 (x / 1024)).

End F64.

(** ** The heat kernel as the specification writes it *)

Module Spec.

Import Np.
Local Open Scope R_scope.

(** K(t, p, p): the sum over j < n of evecs[p,j]^2 * exp(-evals[j] * t). *)
Definition diag_sum (evecs : list (list R)) (evals : list R) (n p : nat) (t : R) : R :=
  sum_upto n (fun j => get2 evecs p j ^ 2 * exp (- get1 evals j * t)).

(** K_t(p, q): the sum over j < n of
    exp(-evals[j] * t) * evecs[p,j] * evecs[q,j]. *)
Definition kernel_sum (evecs : list (list R)) (evals : list R) (n p q : nat) (t : R) : R :=
  sum_upto n (fun j => exp (- get1 evals j * t) * get2 evecs p j * get2 evecs q j).


(** The indicator vector of the seed vertices: 1 at every index of [vids],
    0 elsewhere. *)
Definition indicator (nv : nat) (vids : list Z) : list R :=
  tabulate1 nv (fun k => if existsb (Z.eqb (Z.of_nat k)) vids then 1 else 0).

(** The backward Euler matrix H = mass + t * stiffness, entry by entry. *)
Definition backward_euler (V : nat) (fem : Heat.Fem) (t : R) : Heat.spmatrix :=
  {| Heat.sp_nrows := V;
     Heat.sp_ncols := V;
     Heat.sp_rows := tabulate2 V V (fun i k =>
       get2 (Heat.sp_rows (Heat.mass fem)) i k
       + t * get2 (Heat.sp_rows (Heat.stiffness fem)) i k) |}.

(** *** The range in which doubles follow the exact sums

    [diagonal] multiplies squares of eigenvector entries by exponentials.
    A square overflows to inf beyond about 1.3e154 and [np.exp] overflows
    beyond ln(DBL_MAX), about 709.78; inf times 0 is nan.  Within the
    bounds below neither happens. *)
Definition entry_bound : R := 10 ^ 150.
Definition exponent_bound : R := 709.

(** Every entry of [evecs] is at most [entry_bound] in absolute value. *)
Definition entries_in_range (evecs : list (list R)) : Prop :=
  Forall (Forall (fun a => Rabs a <= entry_bound)) evecs.

(** No exponent -evals[j] * t_k, j < n, exceeds [exponent_bound]. *)
Definition exponents_in_range (evals ts : list R) (n : nat) : Prop :=
  Forall (fun lam => Forall (fun t => - lam * t <= exponent_bound) ts)
    (firstn n evals).

End Spec.

(** ** Facts about the NumPy fragment *)

Module NpFacts.

Import Np.
Local Open Scope R_scope.

Lemma tabulate1_length n f : length (tabulate1 n f) = n.
Proof. unfold tabulate1. now rewrite length_map, length_seq. Qed.

Lemma tabulate2_length r c f : length (tabulate2 r c f) = r.
Proof. unfold tabulate2. now rewrite length_map, length_seq. Qed.

Lemma nth_map_seq {A : Type} (g : nat -> A) (d : A) n i :
  (i < n)%nat -> nth i (map g (seq 0 n)) d = g i.
Proof.
  intros Hi.
  rewrite (nth_indep _ d (g 0%nat)) by now rewrite length_map, length_seq.
  rewrite (map_nth g (seq 0 n) 0%nat i), seq_nth by assumption.
  reflexivity.
Qed.

Lemma get1_tabulate1 n f k : (k < n)%nat -> get1 (tabulate1 n f) k = f k.
Proof. intros Hk. unfold get1, tabulate1. now apply nth_map_seq. Qed.

Lemma nth_tabulate2 r c f i :
  (i < r)%nat -> nth i (tabulate2 r c f) [] = tabulate1 c (f i).
Proof.
  intros Hi. unfold tabulate2.
  now apply (nth_map_seq (fun i => tabulate1 c (f i))).
Qed.

Lemma get2_tabulate2 r c f i k :
  (i < r)%nat -> (k < c)%nat -> get2 (tabulate2 r c f) i k = f i k.
Proof.
  intros Hi Hk. unfold get2. rewrite nth_tabulate2 by assumption.
  now apply get1_tabulate1.
Qed.

Lemma tabulate2_rows r c f : Forall (fun row => length row = c) (tabulate2 r c f).
Proof.
  unfold tabulate2. apply Forall_forall. intros row Hin.
  apply in_map_iff in Hin. destruct Hin as [i [<- _]]. apply tabulate1_length.
Qed.

Lemma tabulate1_ext n f g :
  (forall k, (k < n)%nat -> f k = g k) -> tabulate1 n f = tabulate1 n g.
Proof.
  intros H. unfold tabulate1. apply map_ext_in.
  intros k Hk. apply in_seq in Hk. apply H. lia.
Qed.

Lemma tabulate2_ext r c f g :
  (forall i k, (i < r)%nat -> (k < c)%nat -> f i k = g i k) ->
  tabulate2 r c f = tabulate2 r c g.
Proof.
  intros H. unfold tabulate2. apply map_ext_in.
  intros i Hi. apply in_seq in Hi. apply tabulate1_ext.
  intros k Hk. apply H; lia.
Qed.

Lemma map_map_tabulate2 f r c g :
  map (map f) (tabulate2 r c g) = tabulate2 r c (fun i k => f (g i k)).
Proof.
  unfold tabulate2, tabulate1. rewrite map_map. apply map_ext.
  intros i. now rewrite map_map.
Qed.

Lemma sum_upto_ext n f g :
  (forall j, (j < n)%nat -> f j = g j) -> sum_upto n f = sum_upto n g.
Proof.
  induction n as [|n IH]; intros H; simpl.
  - reflexivity.
  - rewrite IH by (intros; apply H; lia). rewrite H by lia. reflexivity.
Qed.

Lemma sum_upto_nonneg n f :
  (forall j, (j < n)%nat -> 0 <= f j) -> 0 <= sum_upto n f.
Proof.
  induction n as [|n IH]; intros H; simpl.
  - lra.
  - assert (0 <= sum_upto n f) by (apply IH; intros; apply H; lia).
    assert (0 <= f n) by (apply H; lia). lra.
Qed.

Lemma sum_upto_le n f g :
  (forall j, (j < n)%nat -> f j <= g j) -> sum_upto n f <= sum_upto n g.
Proof.
  induction n as [|n IH]; intros H; simpl.
  - lra.
  - assert (sum_upto n f <= sum_upto n g) by (apply IH; intros; apply H; lia).
    assert (f n <= g n) by (apply H; lia). lra.
Qed.

Lemma sum_upto_lt n f g j0 :
  (j0 < n)%nat -> f j0 < g j0 ->
  (forall j, (j < n)%nat -> f j <= g j) -> sum_upto n f < sum_upto n g.
Proof.
  induction n as [|n IH]; intros Hj Hlt H; simpl.
  - lia.
  - assert (Hn : f n <= g n) by (apply H; lia).
    destruct (Nat.eq_dec j0 n) as [->|Hne].
    + assert (sum_upto n f <= sum_upto n g)
        by (apply sum_upto_le; intros; apply H; lia).
      lra.
    + assert (sum_upto n f < sum_upto n g)
        by (apply IH; [lia | assumption | intros; apply H; lia]).
      lra.
Qed.

Lemma bidx_lt d i : (i < d)%nat -> bidx d i = i.
Proof.
  intros Hi. unfold bidx. destruct (Nat.eqb_spec d 1); [lia | reflexivity].
Qed.

Lemma bdim_same d : bdim d d = Some d.
Proof. unfold bdim. now rewrite Nat.eqb_refl. Qed.

Lemma norm_index_in_range len p :
  (0 <= p < Z.of_nat len)%Z -> norm_index len p = Ok (Z.to_nat p).
Proof.
  intros [H0 H1]. unfold norm_index.
  apply Z.leb_le in H0. apply Z.ltb_lt in H1. now rewrite H0, H1.
Qed.

Lemma slice_stop_in_range len n :
  (0 <= n <= Z.of_nat len)%Z -> slice_stop len n = Z.to_nat n.
Proof.
  intros [H0 H1]. unfold slice_stop.
  destruct (Z.ltb_spec n 0); [lia|]. f_equal. lia.
Qed.

Lemma slice_stop_clamp len n :
  (Z.of_nat len <= n)%Z -> slice_stop len n = len.
Proof.
  intros H. unfold slice_stop.
  destruct (Z.ltb_spec n 0); [lia|]. rewrite Z.min_r by lia. apply Nat2Z.id.
Qed.

Lemma slice_stop_le len n : (slice_stop len n <= len)%nat.
Proof.
  unfold slice_stop. destruct (Z.ltb_spec n 0); lia.
Qed.

Lemma mapM_ok {A B : Type} (f : A -> result B) (g : A -> B) l :
  Forall (fun a => f a = Ok (g a)) l -> mapM f l = Ok (map g l).
Proof.
  induction 1 as [|a l Ha _ IH]; simpl.
  - reflexivity.
  - now rewrite Ha, IH.
Qed.

Lemma mapM_length {A B : Type} (f : A -> result B) l bs :
  mapM f l = Ok bs -> length bs = length l.
Proof.
  revert bs. induction l as [|a l IH]; simpl; intros bs H.
  - now inversion H.
  - destruct (f a) as [b|e]; simpl in H; [|discriminate].
    destruct (mapM f l) as [bs'|e]; simpl in H; [|discriminate].
    inversion H; subst. simpl. f_equal. now apply IH.
Qed.

Lemma mapM_Forall {A B : Type} (f : A -> result B) (P : B -> Prop) l bs :
  (forall a b, f a = Ok b -> P b) -> mapM f l = Ok bs -> Forall P bs.
Proof.
  intros Hf. revert bs. induction l as [|a l IH]; simpl; intros bs H.
  - inversion H. constructor.
  - destruct (f a) as [b|e] eqn:Ha; simpl in H; [|discriminate].
    destruct (mapM f l) as [bs'|e]; simpl in H; [|discriminate].
    inversion H; subst. constructor; eauto.
Qed.

Lemma mapM_raise {A B : Type} (f : A -> result B) (P : exn -> Prop) l e :
  (forall a e', f a = Raise e' -> P e') -> mapM f l = Raise e -> P e.
Proof.
  intros Hf. induction l as [|a l IH]; simpl; intros H.
  - discriminate.
  - destruct (f a) as [b|e'] eqn:Ha; simpl in H.
    + destruct (mapM f l) as [bs'|e']; simpl in H; [discriminate|].
      inversion H; subst. now apply IH.
    + inversion H; subst. eauto.
Qed.

Lemma Forall_tabulate1 (P : R -> Prop) n f :
  (forall k, (k < n)%nat -> P (f k)) -> Forall P (tabulate1 n f).
Proof.
  intros H. unfold tabulate1. apply Forall_forall. intros v Hin.
  apply in_map_iff in Hin. destruct Hin as [k [<- Hk]].
  apply in_seq in Hk. apply H. lia.
Qed.

Lemma Forall_tabulate2 (P : R -> Prop) r c f :
  (forall i k, (i < r)%nat -> (k < c)%nat -> P (f i k)) ->
  Forall (Forall P) (tabulate2 r c f).
Proof.
  intros H. unfold tabulate2. apply Forall_forall. intros row Hin.
  apply in_map_iff in Hin. destruct Hin as [i [<- Hi]].
  apply in_seq in Hi. apply Forall_tabulate1. intros k Hk. apply H; lia.
Qed.

Lemma Forall_get1 (P : R -> Prop) v j : P 0 -> Forall P v -> P (get1 v j).
Proof.
  intros H0 Hv. unfold get1.
  destruct (Nat.lt_ge_cases j (length v)) as [Hlt|Hge].
  - rewrite Forall_forall in Hv. apply Hv. now apply nth_In.
  - now rewrite nth_overflow.
Qed.

Lemma Forall_get2 (P : R -> Prop) rows i j :
  P 0 -> Forall (Forall P) rows -> P (get2 rows i j).
Proof.
  intros H0 Hrows. unfold get2. apply (Forall_get1 P); [assumption|].
  destruct (Nat.lt_ge_cases i (length rows)) as [Hlt|Hge].
  - rewrite Forall_forall in Hrows. apply Hrows. now apply nth_In.
  - rewrite nth_overflow by assumption. constructor.
Qed.

Lemma all_entries_map_arr (P : R -> Prop) f a :
  (forall v, P (f v)) -> all_entries P (map_arr f a).
Proof.
  intros H. destruct a as [v|v|c rows]; simpl.
  - apply H.
  - apply Forall_forall. intros w Hin. apply in_map_iff in Hin.
    destruct Hin as [u [<- _]]. apply H.
  - apply Forall_forall. intros row Hin. apply in_map_iff in Hin.
    destruct Hin as [row' [<- _]]. apply Forall_forall. intros w Hin.
    apply in_map_iff in Hin. destruct Hin as [u [<- _]]. apply H.
Qed.

Lemma multiply_self_nonneg a s :
  multiply a a = Ok s -> all_entries (fun v => 0 <= v) s.
Proof.
  destruct a as [v|v|c rows]; simpl; intros H.
  - inversion H; subst. simpl. nra.
  - rewrite bdim_same in H. inversion H; subst. simpl.
    apply Forall_tabulate1. intros k _. nra.
  - rewrite !bdim_same in H. inversion H; subst. simpl.
    apply Forall_tabulate2. intros i k _ _. nra.
Qed.

Lemma matmul_nonneg a b h :
  all_entries (fun v => 0 <= v) a -> all_entries (fun v => 0 <= v) b ->
  matmul a b = Ok h -> all_entries (fun v => 0 <= v) h.
Proof.
  assert (Hprod : forall u w : R, 0 <= u -> 0 <= w -> 0 <= u * w)
    by (intros; nra).
  destruct a as [x|u|c1 r1], b as [y|w|c2 r2]; simpl; intros Ha Hb H;
    try discriminate.
  - destruct (length u =? length w); [|discriminate].
    inversion H; subst. simpl. apply sum_upto_nonneg. intros j _.
    apply Hprod; apply (Forall_get1 (fun v => 0 <= v)); auto; lra.
  - destruct (length u =? length r2); [|discriminate].
    inversion H; subst. simpl. apply Forall_tabulate1. intros k _.
    apply sum_upto_nonneg. intros j _. apply Hprod.
    + apply (Forall_get1 (fun v => 0 <= v)); auto; lra.
    + apply (Forall_get2 (fun v => 0 <= v)); auto; lra.
  - destruct (c1 =? length w); [|discriminate].
    inversion H; subst. simpl. apply Forall_tabulate1. intros i _.
    apply sum_upto_nonneg. intros j _. apply Hprod.
    + apply (Forall_get2 (fun v => 0 <= v)); auto; lra.
    + apply (Forall_get1 (fun v => 0 <= v)); auto; lra.
  - destruct (c1 =? length r2); [|discriminate].
    inversion H; subst. simpl. apply Forall_tabulate2. intros i k _ _.
    apply sum_upto_nonneg. intros j _. apply Hprod.
    + apply (Forall_get2 (fun v => 0 <= v)); auto; lra.
    + apply (Forall_get2 (fun v => 0 <= v)); auto; lra.
Qed.

Lemma norm_index_raise len i e : norm_index len i = Raise e -> shape_error e.
Proof.
  unfold norm_index. intros H.
  destruct ((0 <=? i)%Z && (i <? Z.of_nat len)%Z); [discriminate|].
  destruct ((- Z.of_nat len <=? i)%Z && (i <? 0)%Z); [discriminate|].
  inversion H. now left.
Qed.

Lemma getitem_rows_slice_raise a x n e :
  getitem_rows_slice a x n = Raise e -> shape_error e.
Proof.
  destruct a as [v|v|c rows]; simpl; intros H;
    try (inversion H; now left).
  destruct x as [i|l].
  - destruct (norm_index (length rows) i) as [r|e'] eqn:Hi; simpl in H;
      [discriminate|].
    inversion H; subst. eapply norm_index_raise; eassumption.
  - destruct (mapM _ l) as [rs|e'] eqn:Hm; simpl in H; [discriminate|].
    inversion H; subst. revert Hm. apply mapM_raise.
    intros i e' Hi.
    destruct (norm_index (length rows) i) as [r|e''] eqn:Hn; simpl in Hi;
      [discriminate|].
    inversion Hi; subst. eapply norm_index_raise; eassumption.
Qed.

Lemma getitem_slice_raise a n e : getitem_slice a n = Raise e -> shape_error e.
Proof.
  destruct a; simpl; intros H; try discriminate. inversion H. now left.
Qed.

Lemma getitem_all_slice_raise a n e :
  getitem_all_slice a n = Raise e -> shape_error e.
Proof.
  destruct a; simpl; intros H; try discriminate; inversion H; now left.
Qed.

Lemma multiply_raise a b e : multiply a b = Raise e -> shape_error e.
Proof.
  destruct a as [x|u|c1 r1], b as [y|w|c2 r2]; simpl; intros H;
    try discriminate.
  - destruct (bdim (length u) (length w)); [discriminate|].
    inversion H. now right.
  - destruct (bdim (length u) c2); [discriminate|]. inversion H. now right.
  - destruct (bdim c1 (length w)); [discriminate|]. inversion H. now right.
  - destruct (bdim (length r1) (length r2)), (bdim c1 c2);
      try discriminate; inversion H; now right.
Qed.

Lemma matmul_raise a b e : matmul a b = Raise e -> shape_error e.
Proof.
  destruct a as [x|u|c1 r1], b as [y|w|c2 r2]; simpl; intros H;
    try (inversion H; now right).
  - destruct (length u =? length w); [discriminate|]. inversion H. now right.
  - destruct (length u =? length r2); [discriminate|]. inversion H. now right.
  - destruct (c1 =? length w); [discriminate|]. inversion H. now right.
  - destruct (c1 =? length r2); [discriminate|]. inversion H. now right.
Qed.

(** A stop at or beyond the end of the axis is the end of the axis. *)
Lemma getitem_rows_slice_clamp N rows x n :
  (Z.of_nat N <= n)%Z ->
  getitem_rows_slice (Arr2 N rows) x n
  = getitem_rows_slice (Arr2 N rows) x (Z.of_nat N).
Proof.
  intros Hn. unfold getitem_rows_slice.
  now rewrite (slice_stop_clamp N n), (slice_stop_clamp N (Z.of_nat N)) by lia.
Qed.

Lemma getitem_all_slice_clamp N rows n :
  (Z.of_nat N <= n)%Z ->
  getitem_all_slice (Arr2 N rows) n = getitem_all_slice (Arr2 N rows) (Z.of_nat N).
Proof.
  intros Hn. unfold getitem_all_slice.
  now rewrite (slice_stop_clamp N n), (slice_stop_clamp N (Z.of_nat N)) by lia.
Qed.

Lemma getitem_slice_clamp a n :
  (Z.of_nat (len0 a) <= n)%Z ->
  getitem_slice a n = getitem_slice a (Z.of_nat (len0 a)).
Proof.
  intros Hn. destruct a as [x|w|c rows]; simpl in *; unfold slice_to.
  - reflexivity.
  - now rewrite (slice_stop_clamp _ n), (slice_stop_clamp _ (Z.of_nat _)) by lia.
  - now rewrite (slice_stop_clamp _ n), (slice_stop_clamp _ (Z.of_nat _)) by lia.
Qed.

Lemma map_tabulate1 f n g : map f (tabulate1 n g) = tabulate1 n (fun i => f (g i)).
Proof. unfold tabulate1. now rewrite map_map. Qed.

Lemma get1_map_opp v j : get1 (map Ropp v) j = - get1 v j.
Proof.
  unfold get1. destruct (Nat.lt_ge_cases j (length v)) as [Hlt|Hge].
  - rewrite (nth_indep _ 0 (- 0)) by now rewrite length_map.
    apply (map_nth Ropp).
  - rewrite !nth_overflow; try assumption; [ring | now rewrite length_map].
Qed.

End NpFacts.

(** ** Facts about the sums of the specification *)

Module SpecFacts.

Import Np NpFacts Spec.
Local Open Scope R_scope.

Lemma exp_le (a b : R) : a <= b -> exp a <= exp b.
Proof.
  intros [Hlt|Heq].
  - left. now apply exp_increasing.
  - right. now rewrite Heq.
Qed.

Lemma diag_sum_nonneg evecs evals n p t : 0 <= diag_sum evecs evals n p t.
Proof.
  unfold diag_sum. apply sum_upto_nonneg. intros j _.
  apply Rmult_le_pos; [apply pow2_ge_0 | left; apply exp_pos].
Qed.

Lemma diag_term_le (a lam t1 t2 : R) :
  0 <= lam -> t1 <= t2 -> a ^ 2 * exp (- lam * t2) <= a ^ 2 * exp (- lam * t1).
Proof.
  intros Hlam Ht. apply Rmult_le_compat_l; [apply pow2_ge_0|].
  apply exp_le. nra.
Qed.

Lemma diag_term_lt (a lam t1 t2 : R) :
  0 < lam -> a <> 0 -> t1 < t2 ->
  a ^ 2 * exp (- lam * t2) < a ^ 2 * exp (- lam * t1).
Proof.
  intros Hlam Ha Ht. apply Rmult_lt_compat_l.
  - assert (0 < a * a) by (apply Rsqr_pos_lt; exact Ha). nra.
  - apply exp_increasing. nra.
Qed.

(** With non-negative eigenvalues the sum does not increase with t. *)
Lemma diag_sum_le evecs evals n p t1 t2 :
  (forall j, (j < n)%nat -> 0 <= get1 evals j) ->
  t1 <= t2 ->
  diag_sum evecs evals n p t2 <= diag_sum evecs evals n p t1.
Proof.
  intros Hev Ht. unfold diag_sum. apply sum_upto_le. intros j Hj.
  apply diag_term_le; auto.
Qed.

(** It decreases strictly as soon as one term has a positive eigenvalue
    and a non-zero eigenvector entry. *)
Lemma diag_sum_lt evecs evals n p t1 t2 j0 :
  (forall j, (j < n)%nat -> 0 <= get1 evals j) ->
  (j0 < n)%nat -> 0 < get1 evals j0 -> get2 evecs p j0 <> 0 ->
  t1 < t2 ->
  diag_sum evecs evals n p t2 < diag_sum evecs evals n p t1.
Proof.
  intros Hev Hj0 Hpos Hne Ht. unfold diag_sum.
  apply (sum_upto_lt n _ _ j0); [assumption | |].
  - now apply diag_term_lt.
  - intros j Hj. apply diag_term_le; [auto | lra].
Qed.

Lemma diag_term_small (a lam eps : R) :
  0 < lam -> 0 < eps ->
  exists t0, forall t, t0 < t -> a ^ 2 * exp (- lam * t) < eps.
Proof.
  intros Hlam Heps.
  destruct (Req_dec a 0) as [->|Ha].
  - exists 0. intros t _. rewrite pow_i by lia. lra.
  - assert (Ha2 : 0 < a ^ 2).
    { assert (0 < a * a) by (apply Rsqr_pos_lt; exact Ha). nra. }
    assert (Hq : 0 < eps / a ^ 2) by (apply Rdiv_lt_0_compat; assumption).
    exists (- ln (eps / a ^ 2) / lam). intros t Ht.
    assert (Hlt : - lam * t < ln (eps / a ^ 2)).
    { apply (Rmult_lt_compat_r lam) in Ht; [|assumption].
      unfold Rdiv in Ht at 1. rewrite Rmult_assoc, Rinv_l in Ht by lra.
      lra. }
    apply exp_increasing in Hlt. rewrite exp_ln in Hlt by assumption.
    apply (Rmult_lt_compat_l (a ^ 2)) in Hlt; [|assumption].
    replace (a ^ 2 * (eps / a ^ 2)) with eps in Hlt by (field; lra).
    exact Hlt.
Qed.

(** With positive eigenvalues only, the sum tends to zero. *)
Lemma diag_sum_small evecs evals n p eps :
  (forall j, (j < n)%nat -> 0 < get1 evals j) ->
  0 < eps ->
  exists t0, forall t, t0 < t -> diag_sum evecs evals n p t < eps.
Proof.
  unfold diag_sum. revert eps. induction n as [|n IH]; intros eps Hev Heps.
  - exists 0. intros t _. simpl. assumption.
  - destruct (IH (eps / 2)) as [ta Hta]; [intros; apply Hev; lia | lra |].
    destruct (diag_term_small (get2 evecs p n) (get1 evals n) (eps / 2))
      as [tb Htb]; [apply Hev; lia | lra |].
    exists (Rmax ta tb). intros t Ht. cbn [sum_upto].
    assert (ta < t) by (eapply Rle_lt_trans; [apply Rmax_l | exact Ht]).
    assert (tb < t) by (eapply Rle_lt_trans; [apply Rmax_r | exact Ht]).
    specialize (Hta t ltac:(assumption)).
    specialize (Htb t ltac:(assumption)). lra.
Qed.

Lemma diag_sum_small_all evecs evals n (ps : list nat) eps :
  (forall j, (j < n)%nat -> 0 < get1 evals j) ->
  0 < eps ->
  exists t0, forall p t, In p ps -> t0 < t -> diag_sum evecs evals n p t < eps.
Proof.
  intros Hev Heps. induction ps as [|q ps [ta Hta]].
  - exists 0. intros p t [].
  - destruct (diag_sum_small evecs evals n q eps Hev Heps) as [tb Htb].
    exists (Rmax ta tb). intros p t Hin Ht.
    assert (ta < t) by (eapply Rle_lt_trans; [apply Rmax_l | exact Ht]).
    assert (tb < t) by (eapply Rle_lt_trans; [apply Rmax_r | exact Ht]).
    destruct Hin as [<-|Hin]; auto.
Qed.

End SpecFacts.

(** ** Facts about [diagonal] and [kernel] *)

Module HeatFacts.

Import Np NpFacts Heat Spec SpecFacts.
Local Open Scope R_scope.

Lemma rows_slice_ok evecs N x n :
  Forall (fun p => (0 <= p < Z.of_nat (length evecs))%Z) x ->
  getitem_rows_slice (Arr2 N evecs) (IdxArr x) n
  = Ok (Arr2 (slice_stop N n)
          (map (fun p => firstn (slice_stop N n) (nth (Z.to_nat p) evecs [])) x)).
Proof.
  intros Hx. simpl.
  rewrite (mapM_ok _
    (fun p => firstn (slice_stop N n) (nth (Z.to_nat p) evecs []))).
  - reflexivity.
  - eapply Forall_impl; [|exact Hx]. intros p Hp. simpl.
    now rewrite norm_index_in_range.
Qed.

Lemma get2_rows_slice evecs (x : list Z) c i j :
  (i < length x)%nat -> (j < c)%nat ->
  get2 (map (fun p => firstn c (nth (Z.to_nat p) evecs [])) x) i j
  = get2 evecs (Z.to_nat (nth i x 0%Z)) j.
Proof.
  intros Hi Hj. unfold get2.
  rewrite (nth_indep _ [] (firstn c (nth (Z.to_nat 0%Z) evecs [])))
    by now rewrite length_map.
  rewrite (map_nth (fun p => firstn c (nth (Z.to_nat p) evecs [])) x 0%Z i).
  rewrite nth_firstn.
  destruct (Nat.ltb_spec j c); [reflexivity | lia].
Qed.

Lemma get2_col_slice (evals : list R) c j :
  (j < c)%nat ->
  get2 (firstn c (map (fun a => [a]) evals)) j 0 = get1 evals j.
Proof.
  intros Hj. unfold get2, get1.
  rewrite nth_firstn. destruct (Nat.ltb_spec j c); [|lia].
  destruct (Nat.lt_ge_cases j (length evals)) as [Hlt|Hge].
  - rewrite (nth_indep _ [] [0]) by now rewrite length_map.
    now rewrite (map_nth (fun a => [a]) evals 0 j).
  - rewrite (nth_overflow (map (fun a => [a]) evals))
      by now rewrite length_map.
    rewrite (nth_overflow evals) by assumption.
    reflexivity.
Qed.

Lemma get2_map_map f rows c i j :
  Forall (fun r => length r = c) rows ->
  (i < length rows)%nat -> (j < c)%nat ->
  get2 (map (map f) rows) i j = f (get2 rows i j).
Proof.
  intros Hwf Hi Hj. unfold get2.
  rewrite (nth_indep _ [] (map f [])) by now rewrite length_map.
  rewrite (map_nth (map f) rows [] i).
  assert (Hlen : length (nth i rows []) = c).
  { rewrite Forall_forall in Hwf. apply Hwf. now apply nth_In. }
  rewrite (nth_indep _ 0 (f 0)) by (rewrite length_map; lia).
  now rewrite (map_nth f (nth i rows []) 0 j).
Qed.

(** The rows [evecs[x, 0:n]] and the matrix exp(-evals[0:n] t) that
    [diagonal] multiplies. *)
Lemma diagonal_unfold evecs evals ts x n N :
  length evals = N ->
  Forall (fun p => (0 <= p < Z.of_nat (length evecs))%Z) x ->
  diagonal (row_vector ts) (IdxArr x) (Arr2 N evecs) (col_vector evals) n
  = let c := slice_stop N n in
    let ex := map (fun p => firstn c (nth (Z.to_nat p) evecs [])) x in
    let sq := tabulate2 (length x) c (fun i k => get2 ex i k * get2 ex i k) in
    let ev := firstn c (map (fun a => [a]) evals) in
    let et := tabulate2 c (length ts) (fun i k =>
                sum_upto 1 (fun j => get2 ev i j * get2 [ts] j k)) in
    Ok (Arr2 (length ts) (tabulate2 (length x) (length ts) (fun i k =>
          sum_upto c (fun j =>
            get2 sq i j * get2 (map (map exp) (map (map Ropp) et)) j k)))).
Proof.
  intros HN Hx. unfold diagonal, row_vector, col_vector.
  rewrite rows_slice_ok by assumption. cbn [rbind].
  unfold multiply. rewrite !bdim_same, length_map.
  cbn [rbind getitem_slice]. unfold slice_to. rewrite length_map, HN.
  unfold matmul at 1. cbn [length Nat.eqb rbind].
  assert (Hlen : length (firstn (slice_stop N n) (map (fun a : R => [a]) evals))
                 = slice_stop N n).
  { rewrite length_firstn, length_map, HN.
    pose proof (slice_stop_le N n). lia. }
  rewrite Hlen.
  unfold np_exp, negative, map_arr, matmul.
  rewrite !length_map, !tabulate2_length, Nat.eqb_refl.
  cbv zeta. f_equal. f_equal.
  apply tabulate2_ext. intros i k Hi Hk.
  apply sum_upto_ext. intros j Hj. f_equal.
  rewrite !get2_tabulate2 by lia.
  rewrite !bidx_lt by lia. reflexivity.
Qed.

(** The matrix [diagonal] returns on a row vector of times, a column
    vector of eigenvalues and in-range indices, in closed form. *)
Lemma diagonal_matrix evecs evals ts x n N :
  length evals = N ->
  Forall (fun p => (0 <= p < Z.of_nat (length evecs))%Z) x ->
  (0 <= n <= Z.of_nat N)%Z ->
  diagonal (row_vector ts) (IdxArr x) (Arr2 N evecs) (col_vector evals) n
  = Ok (Arr2 (length ts) (tabulate2 (length x) (length ts) (fun i k =>
          diag_sum evecs evals (Z.to_nat n) (Z.to_nat (nth i x 0%Z))
            (get1 ts k)))).
Proof.
  intros HN Hx Hn.
  rewrite (diagonal_unfold evecs evals ts x n N HN Hx). cbv zeta.
  f_equal. f_equal. apply tabulate2_ext. intros i k Hi Hk.
  rewrite slice_stop_in_range by lia.
  unfold diag_sum. apply sum_upto_ext. intros j Hj.
  rewrite get2_tabulate2 by assumption.
  rewrite get2_rows_slice by assumption.
  rewrite !map_map_tabulate2, get2_tabulate2 by assumption.
  cbn [sum_upto]. rewrite get2_col_slice by assumption.
  replace (get2 [ts] 0 k) with (get1 ts k) by reflexivity.
  f_equal; [ring | f_equal; ring].
Qed.

(** C1. With [evecs] a V x N matrix, [evals] a column vector of length N,
    [t] a row vector and every index of [x] in [0, V), [diagonal] returns
    for 1 <= n <= N a matrix with one row per entry of [x] and one column
    per entry of [t], whose entry (i, k) is the sum over j < n of
    evecs[x_i, j]^2 * exp(-evals[j] * t_k). *)
Theorem diagonal_entries (evecs : list (list R)) (evals ts : list R)
    (x : list Z) (n : Z) (V N : nat) :
  length evecs = V ->
  Forall (fun row => length row = N) evecs ->
  length evals = N ->
  Forall (fun p => (0 <= p < Z.of_nat V)%Z) x ->
  (1 <= n <= Z.of_nat N)%Z ->
  exists h,
    diagonal (row_vector ts) (IdxArr x) (Arr2 N evecs) (col_vector evals) n
    = Ok (Arr2 (length ts) h)
    /\ length h = length x
    /\ Forall (fun row => length row = length ts) h
    /\ forall i k, (i < length x)%nat -> (k < length ts)%nat ->
         get2 h i k
         = diag_sum evecs evals (Z.to_nat n) (Z.to_nat (nth i x 0%Z)) (get1 ts k).
Proof.
  intros HV _ HN Hx Hn. subst V.
  rewrite (diagonal_matrix evecs evals ts x n N HN Hx) by lia.
  eexists. split; [reflexivity|].
  split; [apply tabulate2_length|].
  split; [apply tabulate2_rows|].
  intros i k Hi Hk. now rewrite get2_tabulate2.
Qed.

Lemma diagonal_entries_witness :
  exists h,
    diagonal (row_vector [1; 2]) (IdxArr [1%Z; 0%Z])
      (Arr2 2 [[1; 2]; [3; 4]]) (col_vector [0; 1]) 2
    = Ok (Arr2 2 h)
    /\ length h = 2%nat
    /\ Forall (fun row => length row = 2%nat) h
    /\ forall i k, (i < 2)%nat -> (k < 2)%nat ->
         get2 h i k
         = diag_sum [[1; 2]; [3; 4]] [0; 1] 2
             (Z.to_nat (nth i [1%Z; 0%Z] 0%Z)) (get1 [1; 2] k).
Proof.
  apply (diagonal_entries [[1; 2]; [3; 4]] [0; 1] [1; 2] [1%Z; 0%Z] 2 2 2).
  - reflexivity.
  - repeat constructor.
  - reflexivity.
  - repeat constructor; simpl; lia.
  - simpl; lia.
Defined.

(** *** Doubles: where the exact sums and the code part *)

(** An exponential that overflows meets a zero square: 0 * inf is nan. *)
Lemma overflow_times_zero (fexp : float -> float) :
  fexp 1000%float = infinity ->
  F64.diagonal fexp (F64.row_vector [1%float]) (IdxArr [0%Z])
    (F64.Arr2 1 [[0%float]]) (F64.col_vector [(-1000)%float]) 1
  = Ok (F64.Arr2 1 [[nan]]).
Proof.
  intros H. vm_compute. rewrite H. reflexivity.
Qed.

(** A square that overflows meets an exponential that underflows. *)
Lemma overflow_square_times_zero (fexp : float -> float) :
  fexp (-1000)%float = 0%float ->
  F64.diagonal fexp (F64.row_vector [1%float]) (IdxArr [0%Z])
    (F64.Arr2 1 [[0x1p+600%float]]) (F64.col_vector [1000%float]) 1
  = Ok (F64.Arr2 1 [[nan]]).
Proof.
  intros H. vm_compute. rewrite H. reflexivity.
Qed.

(** Two exponentials that underflow give the same entry. *)
Lemma underflow_ties (fexp : float -> float) :
  fexp (-1000)%float = 0%float -> fexp (-2000)%float = 0%float ->
  F64.diagonal fexp (F64.row_vector [1000; 2000]%float) (IdxArr [0%Z])
    (F64.Arr2 1 [[1%float]]) (F64.col_vector [1%float]) 1
  = Ok (F64.Arr2 2 [[0; 0]%float]).
Proof.
  intros H1 H2. vm_compute. rewrite H1, H2. reflexivity.
Qed.

Lemma exp64_overflows : F64.exp64 1000%float = infinity.
Proof. reflexivity. Qed.

Lemma exp64_underflows :
  F64.exp64 (-1000)%float = 0%float /\ F64.exp64 (-2000)%float = 0%float.
Proof. split; reflexivity. Qed.

Lemma small_entry_in_range (a : R) : -10 <= a <= 10 -> Rabs a <= entry_bound.
Proof.
  intros Ha. apply Rle_trans with 10.
  - apply Rabs_le. exact Ha.
  - unfold entry_bound. replace 10 with (10 ^ 1) at 1 by ring.
    apply Rle_pow; [lra | lia].
Qed.

(** C10, as the code has it.  With [evecs] a V x N matrix whose entries
    are at most 1e150 in absolute value, [evals] a column vector of length
    N, [t] a row vector, every index of [x] in [0, V), 1 <= n <= N and no
    exponent -evals[j] * t_k, j < n, above 709, [diagonal] returns a matrix
    whose every entry is non-negative, whatever the signs of [evals] and
    [evecs]. *)
Theorem diagonal_nonneg (evecs : list (list R)) (evals ts : list R)
    (x : list Z) (n : Z) (V N : nat) :
  length evecs = V ->
  Forall (fun row => length row = N) evecs ->
  length evals = N ->
  Forall (fun p => (0 <= p < Z.of_nat V)%Z) x ->
  (1 <= n <= Z.of_nat N)%Z ->
  entries_in_range evecs ->
  exponents_in_range evals ts (Z.to_nat n) ->
  exists h,
    diagonal (row_vector ts) (IdxArr x) (Arr2 N evecs) (col_vector evals) n
    = Ok (Arr2 (length ts) h)
    /\ forall i k, (i < length x)%nat -> (k < length ts)%nat ->
         0 <= get2 h i k.
Proof.
  intros HV _ HN Hx Hn _ _. subst V.
  rewrite (diagonal_matrix evecs evals ts x n N HN Hx) by lia.
  eexists. split; [reflexivity|].
  intros i k Hi Hk. rewrite get2_tabulate2 by assumption.
  apply diag_sum_nonneg.
Qed.

Lemma diagonal_nonneg_witness :
  exists h,
    diagonal (row_vector [3; 5]) (IdxArr [0%Z; 1%Z]) (Arr2 2 [[-2; 1]; [3; 4]])
      (col_vector [-1; 2]) 2 = Ok (Arr2 (length [3; 5]) h)
    /\ forall i k, (i < length [0%Z; 1%Z])%nat -> (k < length [3; 5])%nat ->
         0 <= get2 h i k.
Proof.
  apply (diagonal_nonneg [[-2; 1]; [3; 4]] [-1; 2] [3; 5] [0%Z; 1%Z] 2 2 2).
  - reflexivity.
  - repeat constructor.
  - reflexivity.
  - repeat constructor; simpl; lia.
  - simpl; lia.
  - repeat first [apply Forall_nil | apply Forall_cons];
      apply small_entry_in_range; lra.
  - unfold exponents_in_range, exponent_bound. simpl.
    repeat first [apply Forall_nil | apply Forall_cons]; lra.
Defined.

(** C10 as it is written fails on doubles.  With the eigenvalue -1000 at
    time 1 the exponential overflows to inf, and against the zero entry of
    [evecs] the product 0 * inf is nan, which is not >= 0; with the entry
    2^600 and the eigenvalue 1000 the square overflows and the exponential
    underflows, with the same result. *)
Lemma diagonal_nonneg_counterexample :
  F64.diagonal F64.exp64 (F64.row_vector [1%float]) (IdxArr [0%Z])
    (F64.Arr2 1 [[0%float]]) (F64.col_vector [(-1000)%float]) 1
  = Ok (F64.Arr2 1 [[nan]])
  /\ F64.diagonal F64.exp64 (F64.row_vector [1%float]) (IdxArr [0%Z])
       (F64.Arr2 1 [[0x1p+600%float]]) (F64.col_vector [1000%float]) 1
     = Ok (F64.Arr2 1 [[nan]])
  /\ (0 <=? nan)%float = false.
Proof.
  split; [|split].
  - apply overflow_times_zero. exact exp64_overflows.
  - apply overflow_square_times_zero. exact (proj1 exp64_underflows).
  - reflexivity.
Qed.

(** C7, as the code has it.  With eigenvector entries at most 1e150 in
    absolute value and non-negative eigenvalues among the first n, the
    entries of [diagonal] do not increase with t: for 0 <= t1 < t2 the
    entry at t2 is at most the entry at t1.  When the first n eigenvalues
    are all positive the entries tend to zero as t grows. *)
Theorem diagonal_decay (evecs : list (list R)) (evals : list R)
    (x : list Z) (n : Z) (V N : nat) :
  length evecs = V ->
  Forall (fun row => length row = N) evecs ->
  length evals = N ->
  Forall (fun p => (0 <= p < Z.of_nat V)%Z) x ->
  (1 <= n <= Z.of_nat N)%Z ->
  entries_in_range evecs ->
  (forall j, (j < Z.to_nat n)%nat -> 0 <= get1 evals j) ->
  (forall ts1 ts2, length ts1 = length ts2 ->
     exists h1 h2,
       diagonal (row_vector ts1) (IdxArr x) (Arr2 N evecs) (col_vector evals) n
       = Ok (Arr2 (length ts1) h1)
       /\ diagonal (row_vector ts2) (IdxArr x) (Arr2 N evecs) (col_vector evals) n
          = Ok (Arr2 (length ts2) h2)
       /\ forall i k, (i < length x)%nat -> (k < length ts1)%nat ->
            0 <= get1 ts1 k -> get1 ts1 k < get1 ts2 k ->
            get2 h2 i k <= get2 h1 i k)
  /\ ((forall j, (j < Z.to_nat n)%nat -> 0 < get1 evals j) ->
      forall eps, 0 < eps ->
      exists t0, 0 <= t0 /\ forall ts, Forall (fun t => t0 < t) ts ->
        exists h,
          diagonal (row_vector ts) (IdxArr x) (Arr2 N evecs) (col_vector evals) n
          = Ok (Arr2 (length ts) h)
          /\ forall i k, (i < length x)%nat -> (k < length ts)%nat ->
               0 <= get2 h i k < eps).
Proof.
  intros HV _ HN Hx Hn _ Hev. subst V. split.
  - intros ts1 ts2 Hlen.
    rewrite (diagonal_matrix evecs evals ts1 x n N HN Hx) by lia.
    rewrite (diagonal_matrix evecs evals ts2 x n N HN Hx) by lia.
    do 2 eexists. split; [reflexivity|]. split; [reflexivity|].
    intros i k Hi Hk _ Ht.
    rewrite !get2_tabulate2 by (try assumption; lia).
    apply diag_sum_le; [assumption | lra].
  - intros Hpos eps Heps.
    destruct (diag_sum_small_all evecs evals (Z.to_nat n)
                (map (fun p => Z.to_nat p) x) eps Hpos Heps) as [t0 Ht0].
    exists (Rmax t0 0). split; [apply Rmax_r|]. intros ts Hts.
    rewrite (diagonal_matrix evecs evals ts x n N HN Hx) by lia.
    eexists. split; [reflexivity|].
    intros i k Hi Hk. rewrite get2_tabulate2 by assumption. split.
    + apply diag_sum_nonneg.
    + apply Ht0.
      * apply in_map. now apply nth_In.
      * rewrite Forall_forall in Hts.
        apply Rle_lt_trans with (Rmax t0 0); [apply Rmax_l|].
        apply Hts. now apply nth_In.
Qed.

Lemma diagonal_decay_witness :
  exists h1 h2,
    diagonal (row_vector [1]) (IdxArr [0%Z; 1%Z]) (Arr2 2 [[1; 1]; [1; -1]])
      (col_vector [0; 2]) 2 = Ok (Arr2 1 h1)
    /\ diagonal (row_vector [2]) (IdxArr [0%Z; 1%Z]) (Arr2 2 [[1; 1]; [1; -1]])
         (col_vector [0; 2]) 2 = Ok (Arr2 1 h2)
    /\ get2 h2 1 0 <= get2 h1 1 0.
Proof.
  destruct (diagonal_decay [[1; 1]; [1; -1]] [0; 2] [0%Z; 1%Z] 2 2 2)
    as [Hmono _].
  - reflexivity.
  - repeat constructor.
  - reflexivity.
  - repeat constructor; simpl; lia.
  - simpl; lia.
  - repeat first [apply Forall_nil | apply Forall_cons];
      apply small_entry_in_range; lra.
  - intros [|[|j]] Hj; unfold get1; simpl in *; try lra; lia.
  - destruct (Hmono [1] [2] eq_refl) as (h1 & h2 & H1 & H2 & Hd).
    exists h1, h2. split; [exact H1|]. split; [exact H2|].
    apply (Hd 1%nat 0%nat); simpl; try lia; unfold get1; simpl; lra.
Defined.

(** C7 as it is written fails.

    On doubles the decrease is not strict: with the eigenvalue 1 at the
    times 1000 and 2000 both exponentials underflow and both entries are
    0.0; on the two-vertex path (eigenvalues 0 and 2, n = 2) both entries
    are 1.0.  An entry of 2^600 squares to inf, and the entries inf and nan
    at the times 1 and 1000 are not ordered.

    In exact arithmetic: on the path with n = 2 the entries stay at or
    above 1 and do not tend to zero; with n = 1 only the eigenvalue 0
    takes part and the entry is constant; and with the eigenvalues -1 and
    1 the entry exp(t) grows. *)
Lemma diagonal_decay_counterexample :
  (F64.diagonal F64.exp64 (F64.row_vector [1000; 2000]%float) (IdxArr [0%Z])
     (F64.Arr2 1 [[1%float]]) (F64.col_vector [1%float]) 1
   = Ok (F64.Arr2 2 [[0; 0]%float])
   /\ (0 <? 0)%float = false)
  /\ (F64.diagonal F64.exp64 (F64.row_vector [1000; 2000]%float)
        (IdxArr [0%Z; 1%Z]) (F64.Arr2 2 [[1; 1]; [1; -1]]%float)
        (F64.col_vector [0; 2]%float) 2
      = Ok (F64.Arr2 2 [[1; 1]; [1; 1]]%float)
      /\ (1 <? 1)%float = false)
  /\ (F64.diagonal F64.exp64 (F64.row_vector [1; 1000]%float) (IdxArr [0%Z])
        (F64.Arr2 1 [[0x1p+600%float]]) (F64.col_vector [1%float]) 1
      = Ok (F64.Arr2 2 [[infinity; nan]])
      /\ (nan <=? infinity)%float = false)
  /\ (0 < get1 [0; 2] 1
      /\ forall t, exists h,
           diagonal (row_vector [t]) (IdxArr [0%Z]) (Arr2 2 [[1; 1]; [1; -1]])
             (col_vector [0; 2]) 2 = Ok (Arr2 1 h)
           /\ 1 <= get2 h 0 0)
  /\ (exists h1 h2,
        diagonal (row_vector [1]) (IdxArr [0%Z]) (Arr2 2 [[1; 1]; [1; -1]])
          (col_vector [0; 2]) 1 = Ok (Arr2 1 h1)
        /\ diagonal (row_vector [2]) (IdxArr [0%Z]) (Arr2 2 [[1; 1]; [1; -1]])
             (col_vector [0; 2]) 1 = Ok (Arr2 1 h2)
        /\ 0 < get1 [0; 2] 1
        /\ 0 < 1 < 2
        /\ ~ get2 h2 0 0 < get2 h1 0 0)
  /\ (exists h1 h2,
        diagonal (row_vector [1]) (IdxArr [0%Z]) (Arr2 2 [[1; 0]])
          (col_vector [-1; 1]) 2 = Ok (Arr2 1 h1)
        /\ diagonal (row_vector [2]) (IdxArr [0%Z]) (Arr2 2 [[1; 0]])
             (col_vector [-1; 1]) 2 = Ok (Arr2 1 h2)
        /\ 0 < get1 [-1; 1] 1
        /\ 0 < 1 < 2
        /\ get2 h1 0 0 < get2 h2 0 0).
Proof.
  assert (Hx : Forall (fun p => (0 <= p < Z.of_nat (length [[1; 1]; [1; -1]]))%Z)
                 [0%Z]) by (repeat constructor; simpl; lia).
  assert (Hx1 : Forall (fun p => (0 <= p < Z.of_nat (length [[1; 0]]))%Z)
                  [0%Z]) by (repeat constructor; simpl; lia).
  split; [split; reflexivity|].
  split; [split; reflexivity|].
  split; [split; reflexivity|].
  split; [|split].
  - split; [unfold get1; simpl; lra|]. intros t.
    rewrite (diagonal_matrix [[1; 1]; [1; -1]] [0; 2] [t] [0%Z] 2 2 eq_refl Hx)
      by (simpl; lia).
    eexists. split; [reflexivity|].
    unfold diag_sum, get1, get2. simpl.
    replace (- 0 * t) with 0 by ring. rewrite exp_0.
    match goal with |- context [exp ?a] => pose proof (exp_pos a) end. lra.
  - rewrite (diagonal_matrix [[1; 1]; [1; -1]] [0; 2] [1] [0%Z] 1 2 eq_refl Hx)
      by (simpl; lia).
    rewrite (diagonal_matrix [[1; 1]; [1; -1]] [0; 2] [2] [0%Z] 1 2 eq_refl Hx)
      by (simpl; lia).
    do 2 eexists. split; [reflexivity|]. split; [reflexivity|].
    split; [unfold get1; simpl; lra|]. split; [lra|].
    unfold diag_sum, get1, get2. simpl.
    replace (- 0 * 1) with 0 by ring. replace (- 0 * 2) with 0 by ring.
    rewrite exp_0. lra.
  - rewrite (diagonal_matrix [[1; 0]] [-1; 1] [1] [0%Z] 2 2 eq_refl Hx1)
      by (simpl; lia).
    rewrite (diagonal_matrix [[1; 0]] [-1; 1] [2] [0%Z] 2 2 eq_refl Hx1)
      by (simpl; lia).
    do 2 eexists. split; [reflexivity|]. split; [reflexivity|].
    split; [unfold get1; simpl; lra|]. split; [lra|].
    unfold diag_sum, get1, get2. simpl.
    match goal with
    | |- _ + _ * exp ?a + _ < _ + _ * exp ?b + _ =>
        assert (H : exp a < exp b) by (apply exp_increasing; lra)
    end.
    lra.
Qed.

Lemma diagonal_raise t x evecs evals n e :
  diagonal t x evecs evals n = Raise e -> shape_error e.
Proof.
  unfold diagonal. intros H.
  destruct (getitem_rows_slice evecs x n) as [ex|e1] eqn:H1; cbn [rbind] in H;
    [|inversion H; subst; eapply getitem_rows_slice_raise; eassumption].
  destruct (multiply ex ex) as [sq|e2] eqn:H2; cbn [rbind] in H;
    [|inversion H; subst; eapply multiply_raise; eassumption].
  destruct (getitem_slice evals n) as [ev|e3] eqn:H3; cbn [rbind] in H;
    [|inversion H; subst; eapply getitem_slice_raise; eassumption].
  destruct (matmul ev t) as [et|e4] eqn:H4; cbn [rbind] in H;
    [|inversion H; subst; eapply matmul_raise; eassumption].
  eapply matmul_raise; eassumption.
Qed.

Lemma kernel_raise t vfix evecs evals n e :
  kernel t vfix evecs evals n = Raise e -> shape_error e.
Proof.
  unfold kernel. intros H.
  destruct (getitem_all_slice evecs n) as [ea|e1] eqn:H1; cbn [rbind] in H;
    [|inversion H; subst; eapply getitem_all_slice_raise; eassumption].
  destruct (getitem_slice evals n) as [ev|e2] eqn:H2; cbn [rbind] in H;
    [|inversion H; subst; eapply getitem_slice_raise; eassumption].
  destruct (matmul (negative ev) t) as [et|e3] eqn:H3; cbn [rbind] in H;
    [|inversion H; subst; eapply matmul_raise; eassumption].
  destruct (getitem_rows_slice evecs vfix n) as [ef|e4] eqn:H4;
    cbn [rbind] in H;
    [|inversion H; subst; eapply getitem_rows_slice_raise; eassumption].
  destruct (multiply (np_exp et) ef) as [w|e5] eqn:H5; cbn [rbind] in H;
    [|inversion H; subst; eapply multiply_raise; eassumption].
  eapply matmul_raise; eassumption.
Qed.

(** C4, as the code has it.  [diagonal] and [kernel] check nothing
    themselves: whatever they raise is the [IndexError] or [ValueError] of
    NumPy's indexing, broadcasting and [matmul].  A truncation order n at
    or beyond the number N of eigenpairs raises nothing of its own: the
    slices [0:n] stop at N, and the outcome is that of n = N. *)
Theorem truncation_clamps (t : ndarray) (x : index) (rows : list (list R))
    (evals : ndarray) (n : Z) (N : nat) :
  len0 evals = N ->
  (Z.of_nat N <= n)%Z ->
  diagonal t x (Arr2 N rows) evals n
  = diagonal t x (Arr2 N rows) evals (Z.of_nat N)
  /\ kernel t x (Arr2 N rows) evals n
     = kernel t x (Arr2 N rows) evals (Z.of_nat N)
  /\ (forall e, diagonal t x (Arr2 N rows) evals n = Raise e -> shape_error e)
  /\ (forall e, kernel t x (Arr2 N rows) evals n = Raise e -> shape_error e).
Proof.
  intros HN Hn. subst N.
  split; [|split; [|split]].
  - unfold diagonal.
    now rewrite (getitem_rows_slice_clamp _ _ _ n), (getitem_slice_clamp _ n).
  - unfold kernel.
    now rewrite (getitem_rows_slice_clamp _ _ _ n), (getitem_slice_clamp _ n),
      (getitem_all_slice_clamp _ _ n).
  - intros e. apply diagonal_raise.
  - intros e. apply kernel_raise.
Qed.

Lemma truncation_clamps_witness :
  diagonal (row_vector [1]) (IdxArr [0%Z]) (Arr2 2 [[1; 1]; [1; -1]])
    (col_vector [0; 2]) 5
  = diagonal (row_vector [1]) (IdxArr [0%Z]) (Arr2 2 [[1; 1]; [1; -1]])
      (col_vector [0; 2]) 2.
Proof.
  apply (truncation_clamps (row_vector [1]) (IdxArr [0%Z]) [[1; 1]; [1; -1]]
           (col_vector [0; 2]) 5 2).
  - reflexivity.
  - simpl; lia.
Defined.

(** C4 as it is written fails: a truncation order 5 with N = 2 eigenpairs
    is answered, by the matrix of n = 2. *)
Lemma truncation_error_counterexample :
  (Z.of_nat 2 < 5)%Z
  /\ diagonal (row_vector [1]) (IdxArr [0%Z]) (Arr2 2 [[1; 1]; [1; -1]])
       (col_vector [0; 2]) 5
     = Ok (Arr2 1 [[diag_sum [[1; 1]; [1; -1]] [0; 2] 2 0 1]]).
Proof.
  split; [simpl; lia|].
  assert (Hx : Forall (fun p => (0 <= p < Z.of_nat (length [[1; 1]; [1; -1]]))%Z)
                 [0%Z]) by (repeat constructor; simpl; lia).
  transitivity (diagonal (row_vector [1]) (IdxArr [0%Z])
                  (Arr2 2 [[1; 1]; [1; -1]]) (col_vector [0; 2]) 2).
  - unfold diagonal.
    now rewrite (getitem_rows_slice_clamp 2 _ _ 5), (getitem_slice_clamp _ 5)
      by (simpl; lia).
  - rewrite (diagonal_matrix [[1; 1]; [1; -1]] [0; 2] [1] [0%Z] 2 2 eq_refl Hx)
      by (simpl; lia).
    reflexivity.
Qed.

(** Row i of [diagonal] is made from x_i alone. *)
Lemma diagonal_row_by_index evecs evals ts x n N i :
  length evals = N ->
  Forall (fun p => (0 <= p < Z.of_nat (length evecs))%Z) x ->
  (0 <= n <= Z.of_nat N)%Z ->
  (i < length x)%nat ->
  exists h,
    diagonal (row_vector ts) (IdxArr x) (Arr2 N evecs) (col_vector evals) n
    = Ok (Arr2 (length ts) h)
    /\ nth i h []
       = tabulate1 (length ts) (fun k =>
           diag_sum evecs evals (Z.to_nat n) (Z.to_nat (nth i x 0%Z))
             (get1 ts k)).
Proof.
  intros HN Hx Hn Hi.
  rewrite (diagonal_matrix evecs evals ts x n N HN Hx Hn).
  eexists. split; [reflexivity|]. now rewrite nth_tabulate2.
Qed.

Lemma get2_neg_col_slice (evals : list R) c j :
  (j < c)%nat ->
  get2 (map (map Ropp) (firstn c (map (fun a => [a]) evals))) j 0
  = - get1 evals j.
Proof.
  intros Hj. rewrite <- firstn_map, map_map.
  rewrite <- (map_map Ropp (fun a => [a])).
  rewrite get2_col_slice by assumption. apply get1_map_opp.
Qed.

Lemma get2_firstn_cols rows c i j :
  (j < c)%nat -> get2 (map (firstn c) rows) i j = get2 rows i j.
Proof.
  intros Hj. unfold get2.
  replace (nth i (map (firstn c) rows) []) with (firstn c (nth i rows []))
    by (rewrite <- (map_nth (firstn c)), firstn_nil; reflexivity).
  rewrite nth_firstn. destruct (Nat.ltb_spec j c); [reflexivity | lia].
Qed.

(** With a single time given as a 1-d array, [kernel] returns the vector
    of the sums K_t(p, vfix). *)
Lemma kernel_single_time evecs evals t0 vfix n N :
  length evals = N ->
  Forall (fun row => length row = N) evecs ->
  (0 <= vfix < Z.of_nat (length evecs))%Z ->
  (0 <= n <= Z.of_nat N)%Z ->
  kernel (Arr1 [t0]) (IdxInt vfix) (Arr2 N evecs) (col_vector evals) n
  = Ok (Arr1 (tabulate1 (length evecs) (fun p =>
          kernel_sum evecs evals (Z.to_nat n) p (Z.to_nat vfix) t0))).
Proof.
  intros HN Hwf Hv Hn. unfold kernel, col_vector.
  cbn [getitem_all_slice getitem_slice getitem_rows_slice rbind negative map_arr].
  unfold slice_to. rewrite length_map, HN, slice_stop_in_range by lia.
  rewrite norm_index_in_range by assumption. cbn [rbind].
  set (c := Z.to_nat n).
  assert (Hc : (c <= N)%nat) by (unfold c; lia).
  set (ev := firstn c (map (fun a : R => [a]) evals)).
  assert (Hev : length ev = c).
  { unfold ev. rewrite length_firstn, length_map. lia. }
  set (row := firstn c (nth (Z.to_nat vfix) evecs [])).
  assert (Hrow : length row = c).
  { unfold row. rewrite length_firstn.
    assert (length (nth (Z.to_nat vfix) evecs []) = N).
    { rewrite Forall_forall in Hwf. apply Hwf. apply nth_In. lia. }
    lia. }
  cbn [matmul length Nat.eqb rbind np_exp map_arr multiply].
  rewrite !length_map, tabulate1_length, Hev, Hrow, bdim_same.
  cbn [rbind matmul]. rewrite tabulate1_length, Nat.eqb_refl.
  f_equal. f_equal. apply tabulate1_ext. intros p Hp.
  unfold kernel_sum. apply sum_upto_ext. intros j Hj.
  rewrite get1_tabulate1 by assumption. rewrite !bidx_lt by assumption.
  rewrite map_tabulate1, get1_tabulate1 by assumption.
  cbn [sum_upto]. unfold ev. rewrite get2_neg_col_slice by assumption.
  rewrite get2_firstn_cols by assumption.
  unfold row, get1 at 3. rewrite nth_firstn.
  destruct (Nat.ltb_spec j c); [|lia].
  fold (get2 evecs (Z.to_nat vfix) j).
  replace (get1 [t0] 0) with t0 by reflexivity.
  replace (0 + - get1 evals j * t0) with (- get1 evals j * t0) by ring.
  ring.
Qed.

(** On a row vector of T times and n eigenpairs, [kernel] multiplies the
    n x T matrix of exponentials by the row [evecs[vfix, 0:n]], of shape
    (n,): broadcasting aligns that row with the axis of the times, and
    fails unless T = n, T = 1 or n = 1. *)
Lemma kernel_row_vector_mismatch evecs evals ts vfix n N :
  length evals = N ->
  Forall (fun row => length row = N) evecs ->
  (0 <= vfix < Z.of_nat (length evecs))%Z ->
  (0 <= n <= Z.of_nat N)%Z ->
  length ts <> Z.to_nat n -> length ts <> 1%nat -> Z.to_nat n <> 1%nat ->
  kernel (row_vector ts) (IdxInt vfix) (Arr2 N evecs) (col_vector evals) n
  = Raise ValueError.
Proof.
  intros HN Hwf Hv Hn HT HT1 Hn1. unfold kernel, col_vector, row_vector.
  cbn [getitem_all_slice getitem_slice getitem_rows_slice rbind negative map_arr].
  unfold slice_to. rewrite length_map, HN, slice_stop_in_range by lia.
  rewrite norm_index_in_range by assumption. cbn [rbind].
  set (c := Z.to_nat n) in *.
  assert (Hc : (c <= N)%nat) by (unfold c; lia).
  set (row := firstn c (nth (Z.to_nat vfix) evecs [])).
  assert (Hrow : length row = c).
  { unfold row. rewrite length_firstn.
    assert (length (nth (Z.to_nat vfix) evecs []) = N).
    { rewrite Forall_forall in Hwf. apply Hwf. apply nth_In. lia. }
    lia. }
  cbn [matmul length Nat.eqb rbind np_exp map_arr multiply].
  rewrite Hrow. unfold bdim.
  destruct (Nat.eqb_spec (length ts) c); [contradiction|].
  destruct (Nat.eqb_spec (length ts) 1); [contradiction|].
  destruct (Nat.eqb_spec c 1); [contradiction|].
  reflexivity.
Qed.

(** C2, at the input t = [[1, 2]], vfix = 0, evecs = [[1, 2], [3, 4]],
    evals = [[0], [0]], n = 2.  The claim asks for the matrix of the sums
    K_t(p, 0), which is [[5, 5], [11, 11]]; [kernel] returns
    [[3, 6], [7, 14]], each column k scaled by evecs[0, k].  With a third
    time value it raises [ValueError]. *)
Theorem kernel_misaligned_broadcast :
  kernel (row_vector [1; 2]) (IdxInt 0) (Arr2 2 [[1; 2]; [3; 4]])
    (col_vector [0; 0]) 2
  = Ok (Arr2 2 [[3; 6]; [7; 14]])
  /\ tabulate2 2 2 (fun p k =>
       kernel_sum [[1; 2]; [3; 4]] [0; 0] 2 p 0 (get1 [1; 2] k))
     = [[5; 5]; [11; 11]]
  /\ kernel (row_vector [1; 2; 3]) (IdxInt 0) (Arr2 2 [[1; 2]; [3; 4]])
       (col_vector [0; 0]) 2
     = Raise ValueError.
Proof.
  split; [|split].
  - cbv -[Rplus Rmult Ropp exp IZR].
    replace (0 + - 0 * 1) with 0 by ring.
    replace (0 + - 0 * 2) with 0 by ring.
    rewrite exp_0. repeat f_equal; ring.
  - cbv -[Rplus Rmult Ropp exp IZR].
    replace (- 0 * 1) with 0 by ring.
    replace (- 0 * 2) with 0 by ring.
    rewrite exp_0. repeat f_equal; ring.
  - reflexivity.
Qed.

(** C6, at the same input with x = [0].  Row 0 of [diagonal] is [5, 5];
    row 0 of [kernel] for vfix = 0 is [3, 6]. *)
Theorem diagonal_differs_from_kernel_row :
  exists hd hk,
    diagonal (row_vector [1; 2]) (IdxArr [0%Z]) (Arr2 2 [[1; 2]; [3; 4]])
      (col_vector [0; 0]) 2
    = Ok (Arr2 2 hd)
    /\ kernel (row_vector [1; 2]) (IdxInt 0) (Arr2 2 [[1; 2]; [3; 4]])
         (col_vector [0; 0]) 2
       = Ok (Arr2 2 hk)
    /\ nth 0 hd [] = [5; 5]
    /\ nth 0 hk [] = [3; 6]
    /\ nth 0 hd [] <> nth 0 hk [].
Proof.
  exists [[5; 5]], [[3; 6]; [7; 14]].
  split; [|split; [|split; [|split]]]; try reflexivity.
  - cbv -[Rplus Rmult Ropp exp IZR].
    replace (- (0 + 0 * 1)) with 0 by ring.
    replace (- (0 + 0 * 2)) with 0 by ring.
    rewrite exp_0. repeat f_equal; ring.
  - cbv -[Rplus Rmult Ropp exp IZR].
    replace (0 + - 0 * 1) with 0 by ring.
    replace (0 + - 0 * 2) with 0 by ring.
    rewrite exp_0. repeat f_equal; ring.
  - simpl. intros H. inversion H. lra.
Qed.

End HeatFacts.

(** ** Facts about [diffusion] *)

Module DiffusionFacts.

Import Np NpFacts Heat Spec.
Local Open Scope R_scope.

Lemma set_at_length k a l : length (set_at k a l) = length l.
Proof.
  revert k. induction l as [|b l IH]; intros [|k]; simpl; auto.
Qed.

Lemma nth_set_at k a l j :
  (k < length l)%nat ->
  nth j (set_at k a l) 0 = if (j =? k)%nat then a else nth j l 0.
Proof.
  revert k j. induction l as [|b l IH]; intros [|k] [|j] Hk; simpl in *;
    try lia; try reflexivity.
  apply IH. lia.
Qed.

Lemma fold_set_at_length ks b :
  length (fold_left (fun acc k => set_at k 1 acc) ks b) = length b.
Proof.
  revert b. induction ks as [|k ks IH]; intros b; simpl.
  - reflexivity.
  - now rewrite IH, set_at_length.
Qed.

Lemma nth_fold_set_at ks b j :
  Forall (fun k => (k < length b)%nat) ks ->
  nth j (fold_left (fun acc k => set_at k 1 acc) ks b) 0
  = if existsb (Nat.eqb j) ks then 1 else nth j b 0.
Proof.
  revert b. induction ks as [|k ks IH]; intros b Hks; simpl.
  - reflexivity.
  - inversion Hks as [|k' ks' Hk Hks']; subst.
    rewrite IH by (rewrite set_at_length; assumption).
    rewrite nth_set_at by assumption.
    destruct (j =? k)%nat; simpl; [|reflexivity].
    now destruct (existsb (Nat.eqb j) ks).
Qed.

Lemma existsb_to_nat (vids : list Z) j :
  Forall (fun p => (0 <= p)%Z) vids ->
  existsb (Nat.eqb j) (map Z.to_nat vids)
  = existsb (Z.eqb (Z.of_nat j)) vids.
Proof.
  induction 1 as [|p vids Hp _ IH]; simpl.
  - reflexivity.
  - rewrite IH. f_equal.
    destruct (Nat.eqb_spec j (Z.to_nat p)), (Z.eqb_spec (Z.of_nat j) p);
      try reflexivity; lia.
Qed.

(** The source vector: 1.0 at the seeds, zero elsewhere. *)
Lemma setitem_indicator (vids : list Z) V :
  vids <> [] ->
  Forall (fun p => (0 <= p < Z.of_nat V)%Z) vids ->
  setitem (np_zeros V) (np_array (PyList vids)) 1 = Ok (indicator V vids).
Proof.
  intros Hne Hin.
  assert (Hnp : np_array (PyList vids) = (int64, IdxArr vids))
    by (destruct vids; [contradiction | reflexivity]).
  rewrite Hnp. unfold setitem, np_zeros. rewrite repeat_length.
  rewrite (mapM_ok _ Z.to_nat).
  2:{ eapply Forall_impl; [|exact Hin]. intros p Hp.
      now apply norm_index_in_range. }
  cbn [rbind]. f_equal.
  apply (nth_ext _ _ 0 0).
  - rewrite fold_set_at_length, repeat_length.
    unfold indicator. now rewrite tabulate1_length.
  - intros j Hj. rewrite fold_set_at_length, repeat_length in Hj.
    rewrite nth_fold_set_at.
    2:{ rewrite repeat_length. apply Forall_forall. intros k Hk.
        apply in_map_iff in Hk. destruct Hk as [p [<- Hp]].
        rewrite Forall_forall in Hin. specialize (Hin p Hp). lia. }
    rewrite existsb_to_nat
      by (eapply Forall_impl; [|exact Hin]; intros; simpl in *; lia).
    unfold indicator. fold (get1 (tabulate1 V (fun k =>
      if existsb (Z.eqb (Z.of_nat k)) vids then 1 else 0)) j).
    rewrite get1_tabulate1 by assumption.
    destruct (existsb (Z.eqb (Z.of_nat j)) vids); [reflexivity|].
    apply nth_repeat.
Qed.

(** An empty Python list of seeds is an array of floats, and no index. *)
Lemma setitem_empty_list V :
  setitem (np_zeros V) (np_array (PyList [])) 1 = Raise IndexError.
Proof. reflexivity. Qed.

Lemma sp_add_same_shape a b V :
  sp_nrows a = V -> sp_ncols a = V -> sp_nrows b = V -> sp_ncols b = V ->
  sp_add a b
  = Ok {| sp_nrows := V; sp_ncols := V;
          sp_rows := tabulate2 V V (fun i k =>
                       get2 (sp_rows a) i k + get2 (sp_rows b) i k) |}.
Proof.
  intros Ha1 Ha2 Hb1 Hb2. unfold sp_add.
  now rewrite Ha1, Ha2, Hb1, Hb2, !Nat.eqb_refl.
Qed.

Lemma sp_add_backward_euler V fem t :
  sp_nrows (mass fem) = V -> sp_ncols (mass fem) = V ->
  sp_nrows (stiffness fem) = V -> sp_ncols (stiffness fem) = V ->
  sp_add (mass fem) (sp_scale t (stiffness fem)) = Ok (backward_euler V fem t).
Proof.
  intros Hm1 Hm2 Hs1 Hs2.
  rewrite (sp_add_same_shape _ _ V) by assumption.
  unfold backward_euler. f_equal. f_equal.
  apply tabulate2_ext. intros i k Hi Hk. f_equal.
  unfold sp_scale. cbn [sp_rows]. rewrite Hs1, Hs2.
  now rewrite get2_tabulate2.
Qed.

Lemma np_float32_indicator (float32 : R -> R) V vids :
  float32 0 = 0 -> float32 1 = 1 ->
  np_float32 float32 (indicator V vids) = indicator V vids.
Proof.
  intros H0 H1. unfold np_float32, indicator. rewrite map_tabulate1.
  apply tabulate1_ext. intros k _.
  now destruct (existsb (Z.eqb (Z.of_nat k)) vids).
Qed.

Lemma solver_calls_app tr1 tr2 :
  solver_calls (tr1 ++ tr2) = (solver_calls tr1 + solver_calls tr2)%nat.
Proof. unfold solver_calls. now rewrite filter_app, length_app. Qed.

Section Runs.

Variable Aniso : Type.
Variable installed : string -> option Sksparse.
Variable Solver : Geometry -> bool -> option Aniso -> result Fem.
Variable splu : spmatrix -> result Factor.
Variable getformat : spmatrix -> string.
Variable float32 : R -> R.

Let run := diffusion Aniso installed Solver splu getformat float32.

(** The run of the LU strategy, once assembly and seeding went through. *)
Lemma diffusion_lu geometry vids m aniso fem hmat b0 tr :
  Solver geometry true aniso = Ok fem ->
  sp_add (mass fem)
    (sp_scale (m * avg_edge_length geometry ^ 2) (stiffness fem)) = Ok hmat ->
  setitem (np_zeros (length (v geometry))) (np_array vids) 1 = Ok b0 ->
  run geometry vids m aniso false tr
  = let tr' := ((((tr ++ [EvSolver true]) ++ [EvAvgEdgeLength])
                  ++ [EvPrint ("Matrix Format now:  " ++ getformat hmat)])
                  ++ [EvPrint "Solver: spsolve (LU decomposition) ..."])
                  ++ [EvSplu hmat] in
    match splu hmat with
    | Ok lu => (tr' ++ [EvLuSolve (np_float32 float32 b0)],
                solve lu (np_float32 float32 b0))
    | Raise e => (tr', Raise e)
    end.
Proof.
  intros Hfem Hmat Hb0.
  unfold run, diffusion, bind, call, lift, ret, print.
  rewrite Hfem, Hmat, Hb0.
  destruct (splu hmat); reflexivity.
Qed.

(** The run of the Cholesky strategy with [sksparse] installed. *)
Lemma diffusion_cholesky geometry vids m aniso fem hmat b0 md tr :
  Solver geometry true aniso = Ok fem ->
  sp_add (mass fem)
    (sp_scale (m * avg_edge_length geometry ^ 2) (stiffness fem)) = Ok hmat ->
  setitem (np_zeros (length (v geometry))) (np_array vids) 1 = Ok b0 ->
  installed "sksparse" = Some md ->
  run geometry vids m aniso true tr
  = let tr' := (((((tr ++ [EvImportOptional "sksparse"])
                  ++ [EvSolver true]) ++ [EvAvgEdgeLength])
                  ++ [EvPrint ("Matrix Format now:  " ++ getformat hmat)])
                  ++ [EvPrint "Solver: Cholesky decomposition from scikit-sparse cholmod ..."])
                  ++ [EvCholesky hmat] in
    match cholesky md hmat with
    | Ok chol => (tr' ++ [EvCholeskySolve b0], solve chol b0)
    | Raise e => (tr', Raise e)
    end.
Proof.
  intros Hfem Hmat Hb0 Hmd.
  unfold run, diffusion, import_optional_dependency, bind, call, lift,
    ret, print.
  rewrite Hmd, Hfem, Hmat, Hb0.
  destruct (cholesky md hmat); reflexivity.
Qed.

(** Without [sksparse], the Cholesky strategy stops at the import. *)
Lemma diffusion_import_fails geometry vids m aniso tr :
  installed "sksparse" = None ->
  run geometry vids m aniso true tr
  = (tr ++ [EvImportOptional "sksparse"], Raise ConfigurationError).
Proof.
  intros Hmd.
  unfold run, diffusion, import_optional_dependency, bind, call.
  now rewrite Hmd.
Qed.

(** An empty Python list of seeds raises [IndexError] after the assembly. *)
Lemma diffusion_empty_seed_list geometry m aniso fem hmat tr :
  Solver geometry true aniso = Ok fem ->
  sp_add (mass fem)
    (sp_scale (m * avg_edge_length geometry ^ 2) (stiffness fem)) = Ok hmat ->
  run geometry (PyList []) m aniso false tr
  = ((tr ++ [EvSolver true]) ++ [EvAvgEdgeLength], Raise IndexError).
Proof.
  intros Hfem Hmat.
  unfold run, diffusion, bind, call, lift, ret, print.
  now rewrite Hfem, Hmat.
Qed.

(** The outcome of [diffusion] on a V x V assembly and in-range seeds: that
    of the factorisation of H = mass + t stiffness and of its solve for the
    indicator vector, whatever [m] and the average edge length are. *)
Lemma diffusion_outcome geometry (vids : list Z) m aniso use_cholmod fem tr :
  let V := length (v geometry) in
  let H := backward_euler V fem (m * avg_edge_length geometry ^ 2) in
  Solver geometry true aniso = Ok fem ->
  sp_nrows (mass fem) = V -> sp_ncols (mass fem) = V ->
  sp_nrows (stiffness fem) = V -> sp_ncols (stiffness fem) = V ->
  vids <> [] ->
  Forall (fun p => (0 <= p < Z.of_nat V)%Z) vids ->
  float32 0 = 0 -> float32 1 = 1 ->
  snd (run geometry (PyList vids) m aniso use_cholmod tr)
  = rbind (factorize installed splu use_cholmod H)
      (fun f => solve f (indicator V vids)).
Proof.
  intros V H Hfem Hm1 Hm2 Hs1 Hs2 Hne Hin H0 H1.
  pose proof (sp_add_backward_euler V fem
                (m * avg_edge_length geometry ^ 2) Hm1 Hm2 Hs1 Hs2) as Hmat.
  pose proof (setitem_indicator vids V Hne Hin) as Hb0.
  unfold factorize. destruct use_cholmod.
  - destruct (installed "sksparse") as [md|] eqn:Hmd.
    + rewrite (diffusion_cholesky _ _ _ _ _ _ _ md tr Hfem Hmat Hb0 Hmd).
      cbv zeta. fold H. now destruct (cholesky md H).
    + now rewrite diffusion_import_fails.
  - rewrite (diffusion_lu _ _ _ _ _ _ _ tr Hfem Hmat Hb0).
    cbv zeta. fold H. rewrite np_float32_indicator by assumption.
    now destruct (splu H).
Qed.

(** C3. On a geometry of V vertices whose assembly gives V x V mass and
    stiffness matrices, with a non-empty list of seeds in [0, V) and a
    rounding to single precision that keeps 0 and 1, [diffusion] ends as
    the chosen factorisation of H = mass + t stiffness, t = m *
    avg_edge_length^2, and its solve for the indicator vector b0 end; and
    when the factorisation keeps its contract, the vector returned has
    length V and solves H x = b0. *)
Theorem diffusion_solves (geometry : Geometry) (vids : list Z) (m : R)
    (aniso : option Aniso) (use_cholmod : bool) (fem : Fem) (tr : list event) :
  let V := length (v geometry) in
  let H := backward_euler V fem (m * avg_edge_length geometry ^ 2) in
  Solver geometry true aniso = Ok fem ->
  sp_nrows (mass fem) = V -> sp_ncols (mass fem) = V ->
  sp_nrows (stiffness fem) = V -> sp_ncols (stiffness fem) = V ->
  vids <> [] ->
  Forall (fun p => (0 <= p < Z.of_nat V)%Z) vids ->
  0 < m ->
  float32 0 = 0 -> float32 1 = 1 ->
  (forall f, factorize installed splu use_cholmod H = Ok f -> factor_of H f) ->
  snd (run geometry (PyList vids) m aniso use_cholmod tr)
  = rbind (factorize installed splu use_cholmod H)
      (fun f => solve f (indicator V vids))
  /\ forall x,
       snd (run geometry (PyList vids) m aniso use_cholmod tr) = Ok x ->
       length x = V /\ sp_matvec H x = indicator V vids.
Proof.
  intros V H Hfem Hm1 Hm2 Hs1 Hs2 Hne Hin _ H0 H1 Hfac.
  pose proof (diffusion_outcome geometry vids m aniso use_cholmod fem tr
                Hfem Hm1 Hm2 Hs1 Hs2 Hne Hin H0 H1) as Hout.
  fold V H in Hout. split; [exact Hout|].
  intros x Hx. rewrite Hout in Hx.
  destruct (factorize installed splu use_cholmod H) as [f|e] eqn:Hf;
    [|discriminate].
  cbn [rbind] in Hx. exact (Hfac f eq_refl _ _ Hx).
Qed.

(** C5. When the Cholesky strategy is asked for and [sksparse] is not
    installed, [diffusion] raises [ConfigurationError] right after the
    import was tried: the trace gains that one event, and the assembly is
    called no more often than it had been before. *)
Theorem cholesky_unavailable_fails_fast (geometry : Geometry)
    (vids : array_like) (m : R) (aniso : option Aniso) (tr : list event) :
  installed "sksparse" = None ->
  run geometry vids m aniso true tr
  = (tr ++ [EvImportOptional "sksparse"], Raise ConfigurationError)
  /\ solver_calls (fst (run geometry vids m aniso true tr)) = solver_calls tr.
Proof.
  intros Hmd. rewrite diffusion_import_fails by assumption.
  split; [reflexivity|].
  cbn [fst]. rewrite solver_calls_app. cbn. lia.
Qed.

(** C8, as the code has it.  A non-positive [m] or a zero average edge
    length raises nothing: with the assembly done and in-range seeds,
    [diffusion] ends as the chosen factorisation of H = mass + m *
    avg_edge_length^2 * stiffness and its solve for b0 end, in an error
    only if they raise one. *)
Theorem diffusion_no_domain_check (geometry : Geometry) (vids : list Z)
    (m : R) (aniso : option Aniso) (use_cholmod : bool) (fem : Fem)
    (tr : list event) :
  let V := length (v geometry) in
  let H := backward_euler V fem (m * avg_edge_length geometry ^ 2) in
  m <= 0 \/ avg_edge_length geometry = 0 ->
  Solver geometry true aniso = Ok fem ->
  sp_nrows (mass fem) = V -> sp_ncols (mass fem) = V ->
  sp_nrows (stiffness fem) = V -> sp_ncols (stiffness fem) = V ->
  vids <> [] ->
  Forall (fun p => (0 <= p < Z.of_nat V)%Z) vids ->
  float32 0 = 0 -> float32 1 = 1 ->
  snd (run geometry (PyList vids) m aniso use_cholmod tr)
  = rbind (factorize installed splu use_cholmod H)
      (fun f => solve f (indicator V vids)).
Proof.
  intros V H _. apply diffusion_outcome.
Qed.

(** C9. With the same assembled matrix and source vector b0, the LU
    strategy solves for [np.float32(b0)] and the Cholesky strategy for b0
    itself. *)
Theorem rhs_cast_only_on_lu (geometry : Geometry) (vids : array_like)
    (m : R) (aniso : option Aniso) (fem : Fem) (hmat : spmatrix)
    (b0 : list R) (tr : list event) :
  Solver geometry true aniso = Ok fem ->
  sp_add (mass fem)
    (sp_scale (m * avg_edge_length geometry ^ 2) (stiffness fem)) = Ok hmat ->
  setitem (np_zeros (length (v geometry))) (np_array vids) 1 = Ok b0 ->
  (forall lu, splu hmat = Ok lu ->
     exists tr',
       run geometry vids m aniso false tr
       = (tr' ++ [EvSplu hmat] ++ [EvLuSolve (map float32 b0)],
          solve lu (map float32 b0)))
  /\ (forall md chol,
        installed "sksparse" = Some md -> cholesky md hmat = Ok chol ->
        exists tr',
          run geometry vids m aniso true tr
          = (tr' ++ [EvCholesky hmat] ++ [EvCholeskySolve b0],
             solve chol b0)).
Proof.
  intros Hfem Hmat Hb0. split.
  - intros lu Hlu.
    rewrite (diffusion_lu _ _ _ _ _ _ _ tr Hfem Hmat Hb0). cbv zeta.
    rewrite Hlu. eexists. rewrite app_assoc. reflexivity.
  - intros md chol Hmd Hchol.
    rewrite (diffusion_cholesky _ _ _ _ _ _ _ md tr Hfem Hmat Hb0 Hmd).
    cbv zeta. rewrite Hchol. eexists. rewrite app_assoc. reflexivity.
Qed.

End Runs.

(** *** The one-vertex mesh *)

Import Example.

Lemma factor1_contract hmat f : factor1 hmat = Ok f -> factor_of hmat f.
Proof.
  unfold factor1.
  destruct (sp_nrows hmat) as [|[|r]] eqn:Hr; try discriminate.
  destruct (sp_ncols hmat) as [|[|c]] eqn:Hc; try discriminate.
  destruct (Req_dec_T (get2 (sp_rows hmat) 0 0) 0) as [|Hne]; [discriminate|].
  intros Hf. inversion Hf; subst f. clear Hf.
  intros b x. cbn [solve].
  destruct b as [|y [|y' b]]; try discriminate.
  intros Hx. inversion Hx; subst x. split; [now rewrite Hr|].
  unfold sp_matvec. rewrite Hr, Hc. cbn. unfold get1. cbn.
  f_equal. field. exact Hne.
Qed.

Lemma factorize1_contract installed use_cholmod hmat f :
  (installed = no_modules \/ installed = with_sksparse) ->
  factorize installed factor1 use_cholmod hmat = Ok f -> factor_of hmat f.
Proof.
  intros [-> | ->]; unfold factorize; destruct use_cholmod; cbn;
    try discriminate; apply factor1_contract.
Qed.

Lemma mesh_seed_in_range ael :
  Forall (fun p => (0 <= p < Z.of_nat (length (v (mesh ael))))%Z) [0%Z].
Proof. repeat constructor; simpl; lia. Qed.

Lemma diffusion_solves_witness :
  snd (diffusion unit with_sksparse Solver1 factor1 format1 exact
         (mesh 1) (PyList [0%Z]) 1 None true [])
  = rbind (factorize with_sksparse factor1 true
             (backward_euler 1 fem1 (1 * 1 ^ 2)))
      (fun f => solve f (indicator 1 [0%Z]))
  /\ forall x,
       snd (diffusion unit with_sksparse Solver1 factor1 format1 exact
              (mesh 1) (PyList [0%Z]) 1 None true []) = Ok x ->
       length x = 1%nat
       /\ sp_matvec (backward_euler 1 fem1 (1 * 1 ^ 2)) x = indicator 1 [0%Z].
Proof.
  apply (diffusion_solves unit with_sksparse Solver1 factor1 format1 exact
           (mesh 1) [0%Z] 1 None true fem1 []).
  - reflexivity.
  - reflexivity.
  - reflexivity.
  - reflexivity.
  - reflexivity.
  - discriminate.
  - apply mesh_seed_in_range.
  - lra.
  - reflexivity.
  - reflexivity.
  - intros f. apply factorize1_contract. now right.
Defined.

Lemma cholesky_unavailable_fails_fast_witness :
  diffusion unit no_modules Solver1 factor1 format1 exact
    (mesh 1) (PyList [0%Z]) 1 None true []
  = ([EvImportOptional "sksparse"], Raise ConfigurationError)
  /\ solver_calls
       (fst (diffusion unit no_modules Solver1 factor1 format1 exact
               (mesh 1) (PyList [0%Z]) 1 None true [])) = 0%nat.
Proof.
  apply (cholesky_unavailable_fails_fast unit no_modules Solver1 factor1
           format1 exact (mesh 1) (PyList [0%Z]) 1 None []).
  reflexivity.
Defined.

Lemma diffusion_no_domain_check_witness :
  snd (diffusion unit no_modules Solver1 factor1 format1 exact
         (mesh 1) (PyList [0%Z]) (-1) None false [])
  = rbind (factorize no_modules factor1 false
             (backward_euler 1 fem1 (-1 * 1 ^ 2)))
      (fun f => solve f (indicator 1 [0%Z])).
Proof.
  apply (diffusion_no_domain_check unit no_modules Solver1 factor1 format1
           exact (mesh 1) [0%Z] (-1) None false fem1 []).
  - left. lra.
  - reflexivity.
  - reflexivity.
  - reflexivity.
  - reflexivity.
  - reflexivity.
  - discriminate.
  - apply mesh_seed_in_range.
  - reflexivity.
  - reflexivity.
Defined.

Lemma rhs_cast_only_on_lu_witness :
  (forall lu,
     factor1 (backward_euler 1 fem1 (1 * 1 ^ 2)) = Ok lu ->
     exists tr',
       diffusion unit with_sksparse Solver1 factor1 format1 exact
         (mesh 1) (PyList [0%Z]) 1 None false []
       = (tr' ++ [EvSplu (backward_euler 1 fem1 (1 * 1 ^ 2))]
              ++ [EvLuSolve (map exact (indicator 1 [0%Z]))],
          solve lu (map exact (indicator 1 [0%Z]))))
  /\ (forall md chol,
        with_sksparse "sksparse" = Some md ->
        cholesky md (backward_euler 1 fem1 (1 * 1 ^ 2)) = Ok chol ->
        exists tr',
          diffusion unit with_sksparse Solver1 factor1 format1 exact
            (mesh 1) (PyList [0%Z]) 1 None true []
          = (tr' ++ [EvCholesky (backward_euler 1 fem1 (1 * 1 ^ 2))]
                 ++ [EvCholeskySolve (indicator 1 [0%Z])],
             solve chol (indicator 1 [0%Z]))).
Proof.
  apply (rhs_cast_only_on_lu unit with_sksparse Solver1 factor1 format1 exact
           (mesh 1) (PyList [0%Z]) 1 None fem1
           (backward_euler 1 fem1 (1 * 1 ^ 2)) (indicator 1 [0%Z]) []).
  - reflexivity.
  - apply (sp_add_backward_euler 1 fem1); reflexivity.
  - apply (setitem_indicator [0%Z] 1); [discriminate|].
    apply (mesh_seed_in_range 1).
Defined.

(** C8 as it is written fails: with m = -1, and with an average edge
    length of zero, [diffusion] returns a vector. *)
Lemma domain_error_counterexample :
  -1 <= 0
  /\ snd (diffusion unit no_modules Solver1 factor1 format1 exact
            (mesh 1) (PyList [0%Z]) (-1) None false []) = Ok [1]
  /\ avg_edge_length (mesh 0) = 0
  /\ snd (diffusion unit no_modules Solver1 factor1 format1 exact
            (mesh 0) (PyList [0%Z]) 1 None false []) = Ok [1 / 2].
Proof.
  split; [lra|]. split; [|split; [reflexivity|]].
  - rewrite (diffusion_outcome unit no_modules Solver1 factor1 format1 exact
               (mesh 1) [0%Z] (-1) None false fem1 []);
      try reflexivity; try discriminate; try apply mesh_seed_in_range.
    unfold factorize, factor1. cbn [backward_euler sp_nrows sp_ncols sp_rows
      length v mesh avg_edge_length].
    destruct (Req_dec_T _ 0) as [Heq|Hne].
    + exfalso. revert Heq. unfold get2, get1. cbn. lra.
    + cbn [rbind solve]. unfold indicator, get2. cbn. f_equal. f_equal. field.
  - rewrite (diffusion_outcome unit no_modules Solver1 factor1 format1 exact
               (mesh 0) [0%Z] 1 None false fem1 []);
      try reflexivity; try discriminate; try apply mesh_seed_in_range.
    unfold factorize, factor1. cbn [backward_euler sp_nrows sp_ncols sp_rows
      length v mesh avg_edge_length].
    destruct (Req_dec_T _ 0) as [Heq|Hne].
    + exfalso. revert Heq. unfold get2, get1. cbn. lra.
    + cbn [rbind solve]. unfold indicator, get2. cbn. f_equal. f_equal. field.
Qed.

End DiffusionFacts.


(** ** Further facts about [kernel], [diagonal] and [diffusion] *)

Module ExtraFacts.

Import Np NpFacts Heat Spec SpecFacts HeatFacts DiffusionFacts.
Local Open Scope R_scope.

Lemma bidx_bdim_l a b d k :
  bdim a b = Some d -> (k < d)%nat -> (bidx a k < a)%nat.
Proof.
  unfold bdim, bidx. intros H Hk.
  destruct (Nat.eqb_spec a b), (Nat.eqb_spec a 1), (Nat.eqb_spec b 1);
    inversion H; subst; lia.
Qed.

Lemma bidx_bdim_r a b d k :
  bdim a b = Some d -> (k < d)%nat -> (bidx b k < b)%nat.
Proof.
  unfold bdim, bidx. intros H Hk.
  destruct (Nat.eqb_spec a b), (Nat.eqb_spec a 1), (Nat.eqb_spec b 1);
    inversion H; subst; lia.
Qed.

Lemma sum_upto_scale n f w :
  sum_upto n (fun j => f j * w) = w * sum_upto n f.
Proof.
  induction n as [|n IH]; simpl.
  - ring.
  - rewrite IH. ring.
Qed.

(** What [kernel] computes on a row vector of times, whenever the
    broadcast of the fixed vertex's row goes through. *)
Lemma kernel_row_vector evecs evals ts vfix n N d :
  length evals = N ->
  Forall (fun row => length row = N) evecs ->
  (0 <= vfix < Z.of_nat (length evecs))%Z ->
  (0 <= n <= Z.of_nat N)%Z ->
  bdim (length ts) (Z.to_nat n) = Some d ->
  kernel (row_vector ts) (IdxInt vfix) (Arr2 N evecs) (col_vector evals) n
  = Ok (Arr2 d (tabulate2 (length evecs) d (fun p k =>
          sum_upto (Z.to_nat n) (fun j =>
            get2 evecs p j
            * (exp (- get1 evals j * get1 ts (bidx (length ts) k))
               * get2 evecs (Z.to_nat vfix) (bidx (Z.to_nat n) k)))))).
Proof.
  intros HN Hwf Hv Hn Hd. unfold kernel, col_vector, row_vector.
  cbn [getitem_all_slice getitem_slice getitem_rows_slice rbind negative map_arr].
  unfold slice_to. rewrite length_map, HN, slice_stop_in_range by lia.
  rewrite norm_index_in_range by assumption. cbn [rbind].
  set (c := Z.to_nat n) in *.
  assert (Hc : (c <= N)%nat) by (unfold c; lia).
  set (ev := firstn c (map (fun a : R => [a]) evals)).
  assert (Hev : length ev = c).
  { unfold ev. rewrite length_firstn, length_map. lia. }
  set (row := firstn c (nth (Z.to_nat vfix) evecs [])).
  assert (Hrow : length row = c).
  { unfold row. rewrite length_firstn.
    assert (length (nth (Z.to_nat vfix) evecs []) = N).
    { rewrite Forall_forall in Hwf. apply Hwf. apply nth_In. lia. }
    lia. }
  cbn [matmul length Nat.eqb rbind np_exp map_arr multiply].
  rewrite Hrow, Hd. cbn [rbind matmul].
  rewrite !length_map, !tabulate2_length, Hev, Nat.eqb_refl.
  f_equal. f_equal. apply tabulate2_ext. intros p k Hp Hk.
  apply sum_upto_ext. intros j Hj.
  rewrite get2_firstn_cols by assumption. f_equal.
  rewrite get2_tabulate2 by assumption.
  pose proof (bidx_bdim_l _ _ _ _ Hd Hk) as Hkt.
  pose proof (bidx_bdim_r _ _ _ _ Hd Hk) as Hkc.
  rewrite map_map_tabulate2, get2_tabulate2 by assumption.
  cbn [sum_upto]. unfold ev. rewrite get2_neg_col_slice by assumption.
  f_equal.
  - f_equal. unfold get2, get1. cbn [nth]. ring.
  - unfold row, get1. rewrite nth_firstn.
    destruct (Nat.ltb_spec (bidx c k) c); [reflexivity | lia].
Qed.

(** X1. For one time value passed as a 1-d array of length 1, [kernel]
    returns a vector with one entry per vertex, the entry of vertex p being
    the sum over j < n of exp(-evals[j] t) evecs[p,j] evecs[vfix,j]. *)
Theorem kernel_one_time (evecs : list (list R)) (evals : list R) (t0 : R)
    (vfix n : Z) (N : nat) :
  length evals = N ->
  Forall (fun row => length row = N) evecs ->
  (0 <= vfix < Z.of_nat (length evecs))%Z ->
  (0 <= n <= Z.of_nat N)%Z ->
  exists h,
    kernel (Arr1 [t0]) (IdxInt vfix) (Arr2 N evecs) (col_vector evals) n
    = Ok (Arr1 h)
    /\ length h = length evecs
    /\ forall p, (p < length evecs)%nat ->
         get1 h p = kernel_sum evecs evals (Z.to_nat n) p (Z.to_nat vfix) t0.
Proof.
  intros HN Hwf Hv Hn.
  rewrite (kernel_single_time evecs evals t0 vfix n N HN Hwf Hv Hn).
  eexists. split; [reflexivity|]. split; [apply tabulate1_length|].
  intros p Hp. now rewrite get1_tabulate1.
Qed.

Lemma kernel_one_time_witness :
  exists h,
    kernel (Arr1 [3]) (IdxInt 1) (Arr2 2 [[1; 2]; [3; 4]])
      (col_vector [0; 1]) 2 = Ok (Arr1 h)
    /\ length h = 2%nat
    /\ forall p, (p < 2)%nat ->
         get1 h p = kernel_sum [[1; 2]; [3; 4]] [0; 1] 2 p 1 3.
Proof.
  apply (kernel_one_time [[1; 2]; [3; 4]] [0; 1] 3 1 2 2).
  - reflexivity.
  - repeat constructor.
  - simpl; lia.
  - simpl; lia.
Defined.

(** X2. On a row vector of T times, with n eigenpairs in use, [kernel]
    raises [ValueError] exactly when T differs from n and neither T nor n
    is 1: the row of the fixed vertex is broadcast against the axis of the
    times. *)
Theorem kernel_row_vector_raises_iff (evecs : list (list R))
    (evals ts : list R) (vfix n : Z) (N : nat) :
  length evals = N ->
  Forall (fun row => length row = N) evecs ->
  (0 <= vfix < Z.of_nat (length evecs))%Z ->
  (0 <= n <= Z.of_nat N)%Z ->
  (kernel (row_vector ts) (IdxInt vfix) (Arr2 N evecs) (col_vector evals) n
   = Raise ValueError
   <-> (length ts <> Z.to_nat n /\ length ts <> 1%nat /\ Z.to_nat n <> 1%nat))
  /\ ((exists e, kernel (row_vector ts) (IdxInt vfix) (Arr2 N evecs)
                  (col_vector evals) n = Raise e)
      -> kernel (row_vector ts) (IdxInt vfix) (Arr2 N evecs)
           (col_vector evals) n = Raise ValueError).
Proof.
  intros HN Hwf Hv Hn.
  destruct (bdim (length ts) (Z.to_nat n)) as [d|] eqn:Hd.
  - rewrite (kernel_row_vector evecs evals ts vfix n N d HN Hwf Hv Hn Hd).
    split.
    + split; [discriminate|]. intros (H1 & H2 & H3). exfalso.
      unfold bdim in Hd.
      destruct (Nat.eqb_spec (length ts) (Z.to_nat n)); [contradiction|].
      destruct (Nat.eqb_spec (length ts) 1); [contradiction|].
      destruct (Nat.eqb_spec (Z.to_nat n) 1); [contradiction|].
      discriminate.
    + intros [e He]. discriminate.
  - assert (Hneq : length ts <> Z.to_nat n /\ length ts <> 1%nat
                   /\ Z.to_nat n <> 1%nat).
    { unfold bdim in Hd.
      destruct (Nat.eqb_spec (length ts) (Z.to_nat n)); [discriminate|].
      destruct (Nat.eqb_spec (length ts) 1); [discriminate|].
      destruct (Nat.eqb_spec (Z.to_nat n) 1); [discriminate|].
      auto. }
    destruct Hneq as (H1 & H2 & H3).
    rewrite (kernel_row_vector_mismatch evecs evals ts vfix n N
               HN Hwf Hv Hn H1 H2 H3).
    split; [split; auto | auto].
Qed.

Lemma kernel_row_vector_raises_iff_witness :
  kernel (row_vector [1; 2; 3]) (IdxInt 0) (Arr2 2 [[1; 2]; [3; 4]])
    (col_vector [0; 1]) 2 = Raise ValueError.
Proof.
  destruct (kernel_row_vector_raises_iff [[1; 2]; [3; 4]] [0; 1] [1; 2; 3]
              0 2 2) as [[_ H] _].
  - reflexivity.
  - repeat constructor.
  - simpl; lia.
  - simpl; lia.
  - apply H. repeat split; vm_compute; discriminate.
Defined.

(** X3. With the first eigenpair only (n = 1), [kernel] on a row vector of
    T times returns the V x T matrix of the sums K_t(p, vfix), here the
    single term exp(-evals[0] t_k) evecs[p,0] evecs[vfix,0]. *)
Theorem kernel_first_eigenpair (evecs : list (list R)) (evals ts : list R)
    (vfix : Z) (N : nat) :
  length evals = N ->
  Forall (fun row => length row = N) evecs ->
  (0 <= vfix < Z.of_nat (length evecs))%Z ->
  (1 <= N)%nat ->
  kernel (row_vector ts) (IdxInt vfix) (Arr2 N evecs) (col_vector evals) 1
  = Ok (Arr2 (length ts) (tabulate2 (length evecs) (length ts) (fun p k =>
          kernel_sum evecs evals 1 p (Z.to_nat vfix) (get1 ts k)))).
Proof.
  intros HN Hwf Hv HN1.
  assert (Hd : bdim (length ts) (Z.to_nat 1) = Some (length ts)).
  { unfold bdim. change (Z.to_nat 1) with 1%nat.
    destruct (Nat.eqb_spec (length ts) 1) as [->|]; [reflexivity|].
    reflexivity. }
  rewrite (kernel_row_vector evecs evals ts vfix 1 N (length ts) HN Hwf Hv)
    by (try assumption; lia).
  f_equal. f_equal. apply tabulate2_ext. intros p k Hp Hk.
  change (Z.to_nat 1) with 1%nat. unfold kernel_sum. cbn [sum_upto].
  rewrite (bidx_lt (length ts) k) by assumption.
  change (bidx 1 k) with 0%nat. ring.
Qed.

Lemma kernel_first_eigenpair_witness :
  kernel (row_vector [1; 2; 3]) (IdxInt 1) (Arr2 2 [[1; 2]; [3; 4]])
    (col_vector [0; 1]) 1
  = Ok (Arr2 3 (tabulate2 2 3 (fun p k =>
          kernel_sum [[1; 2]; [3; 4]] [0; 1] 1 p 1 (get1 [1; 2; 3] k)))).
Proof.
  apply (kernel_first_eigenpair [[1; 2]; [3; 4]] [0; 1] [1; 2; 3] 1 2).
  - reflexivity.
  - repeat constructor.
  - simpl; lia.
  - lia.
Defined.

(** X4. When the row vector holds as many times as eigenpairs are in use
    (T = n), [kernel] returns a V x n matrix whose entry (p, k) is
    evecs[vfix, k] times the sum over j < n of
    evecs[p,j] exp(-evals[j] t_k): column k is scaled by the k-th entry of
    the fixed vertex's row. *)
Theorem kernel_square_case (evecs : list (list R)) (evals ts : list R)
    (vfix n : Z) (N : nat) :
  length evals = N ->
  Forall (fun row => length row = N) evecs ->
  (0 <= vfix < Z.of_nat (length evecs))%Z ->
  (0 <= n <= Z.of_nat N)%Z ->
  length ts = Z.to_nat n ->
  kernel (row_vector ts) (IdxInt vfix) (Arr2 N evecs) (col_vector evals) n
  = Ok (Arr2 (length ts) (tabulate2 (length evecs) (length ts) (fun p k =>
          get2 evecs (Z.to_nat vfix) k
          * sum_upto (Z.to_nat n) (fun j =>
              get2 evecs p j * exp (- get1 evals j * get1 ts k))))).
Proof.
  intros HN Hwf Hv Hn HT.
  assert (Hd : bdim (length ts) (Z.to_nat n) = Some (length ts))
    by (rewrite <- HT; apply bdim_same).
  rewrite (kernel_row_vector evecs evals ts vfix n N (length ts)
             HN Hwf Hv Hn Hd).
  f_equal. f_equal. apply tabulate2_ext. intros p k Hp Hk.
  rewrite <- sum_upto_scale. apply sum_upto_ext. intros j Hj.
  rewrite !bidx_lt by lia. ring.
Qed.

Lemma kernel_square_case_witness :
  kernel (row_vector [1; 2]) (IdxInt 0) (Arr2 2 [[1; 2]; [3; 4]])
    (col_vector [0; 1]) 2
  = Ok (Arr2 2 (tabulate2 2 2 (fun p k =>
          get2 [[1; 2]; [3; 4]] 0 k
          * sum_upto 2 (fun j =>
              get2 [[1; 2]; [3; 4]] p j
              * exp (- get1 [0; 1] j * get1 [1; 2] k))))).
Proof.
  apply (kernel_square_case [[1; 2]; [3; 4]] [0; 1] [1; 2] 0 2 2).
  - reflexivity.
  - repeat constructor.
  - simpl; lia.
  - simpl; lia.
  - reflexivity.
Defined.

(** X5. A time given as a bare number, not an array, is refused: [matmul]
    takes no scalar operand, so [diagonal] and [kernel] raise
    [ValueError]. *)
Theorem scalar_time_refused (t0 : R) (x : list Z) (vfix : index)
    (rows : list (list R)) (evals : ndarray) (n : Z) (N : nat) :
  Forall (fun p => (0 <= p < Z.of_nat (length rows))%Z) x ->
  (forall a, evals <> Scalar a) ->
  diagonal (Scalar t0) (IdxArr x) (Arr2 N rows) evals n = Raise ValueError
  /\ kernel (Scalar t0) vfix (Arr2 N rows) evals n = Raise ValueError.
Proof.
  intros Hx Hev. split.
  - unfold diagonal. rewrite rows_slice_ok by assumption. cbn [rbind].
    unfold multiply. rewrite !bdim_same. cbn [rbind].
    destruct evals as [a|w|c ev]; [now elim (Hev a) | reflexivity | reflexivity].
  - unfold kernel. cbn [getitem_all_slice rbind].
    destruct evals as [a|w|c ev]; [now elim (Hev a) | reflexivity | reflexivity].
Qed.

Lemma scalar_time_refused_witness :
  diagonal (Scalar 1) (IdxArr [0%Z]) (Arr2 2 [[1; 2]; [3; 4]])
    (col_vector [0; 1]) 2 = Raise ValueError
  /\ kernel (Scalar 1) (IdxInt 0) (Arr2 2 [[1; 2]; [3; 4]])
       (col_vector [0; 1]) 2 = Raise ValueError.
Proof.
  apply (scalar_time_refused 1 [0%Z] (IdxInt 0) [[1; 2]; [3; 4]]
           (col_vector [0; 1]) 2 2).
  - repeat constructor; simpl; lia.
  - intros a; discriminate.
Defined.

Lemma norm_index_wrap V p :
  (0 <= p < Z.of_nat V)%Z -> norm_index V (p - Z.of_nat V) = Ok (Z.to_nat p).
Proof.
  intros Hp. unfold norm_index.
  destruct (Z.leb_spec 0 (p - Z.of_nat V)); [lia|]. cbn [andb].
  destruct (Z.leb_spec (- Z.of_nat V) (p - Z.of_nat V)); [|lia].
  destruct (Z.ltb_spec (p - Z.of_nat V) 0); [|lia]. cbn [andb].
  f_equal. f_equal. lia.
Qed.

Lemma getitem_rows_slice_wrap N rows (x : list Z) n :
  Forall (fun p => (0 <= p < Z.of_nat (length rows))%Z) x ->
  getitem_rows_slice (Arr2 N rows)
    (IdxArr (map (fun p => (p - Z.of_nat (length rows))%Z) x)) n
  = getitem_rows_slice (Arr2 N rows) (IdxArr x) n.
Proof.
  intros Hx. rewrite (rows_slice_ok rows N x n Hx).
  cbn [getitem_rows_slice].
  rewrite (mapM_ok _ (fun q =>
             firstn (slice_stop N n)
               (nth (Z.to_nat (q + Z.of_nat (length rows))) rows []))).
  - cbn [rbind]. rewrite map_map. f_equal. f_equal.
    apply map_ext. intros p. do 3 f_equal. lia.
  - apply Forall_forall. intros q Hq. apply in_map_iff in Hq.
    destruct Hq as [p [<- Hp]]. rewrite Forall_forall in Hx.
    rewrite norm_index_wrap by (apply Hx; assumption). cbn [rbind].
    do 4 f_equal. lia.
Qed.

(** X6. Negative vertex indices count from the end: asking [diagonal] for
    the indices x_i - V, or [kernel] for the fixed vertex vfix - V, gives
    what x_i and vfix give. *)
Theorem negative_indices_wrap (t : ndarray) (x : list Z) (vfix : Z)
    (rows : list (list R)) (evals : ndarray) (n : Z) (N : nat) :
  Forall (fun p => (0 <= p < Z.of_nat (length rows))%Z) x ->
  (0 <= vfix < Z.of_nat (length rows))%Z ->
  diagonal t (IdxArr (map (fun p => (p - Z.of_nat (length rows))%Z) x))
    (Arr2 N rows) evals n
  = diagonal t (IdxArr x) (Arr2 N rows) evals n
  /\ kernel t (IdxInt (vfix - Z.of_nat (length rows))) (Arr2 N rows) evals n
     = kernel t (IdxInt vfix) (Arr2 N rows) evals n.
Proof.
  intros Hx Hv. split.
  - unfold diagonal. now rewrite getitem_rows_slice_wrap.
  - unfold kernel. cbn [getitem_rows_slice].
    now rewrite norm_index_wrap, norm_index_in_range.
Qed.

Lemma negative_indices_wrap_witness :
  diagonal (row_vector [1]) (IdxArr [-1; -2]%Z) (Arr2 2 [[1; 2]; [3; 4]])
    (col_vector [0; 1]) 2
  = diagonal (row_vector [1]) (IdxArr [1; 0]%Z) (Arr2 2 [[1; 2]; [3; 4]])
      (col_vector [0; 1]) 2.
Proof.
  apply (negative_indices_wrap (row_vector [1]) [1; 0]%Z 0
           [[1; 2]; [3; 4]] (col_vector [0; 1]) 2 2).
  - repeat constructor; simpl; lia.
  - simpl; lia.
Defined.

Lemma mapM_raises {A B : Type} (f : A -> result B) (e0 : exn) l :
  (forall a e, f a = Raise e -> e = e0) ->
  Exists (fun a => exists e, f a = Raise e) l ->
  mapM f l = Raise e0.
Proof.
  intros Hf. induction l as [|a l IH]; intros Hex.
  - inversion Hex.
  - cbn [mapM]. destruct (f a) as [b|e] eqn:Ha; cbn [rbind].
    + inversion Hex as [a' l' [e He]|a' l' Hex']; subst.
      * congruence.
      * now rewrite IH.
    + f_equal. eapply Hf; eassumption.
Qed.

(** X7. An index of [x] outside [-V, V) makes [diagonal] raise
    [IndexError], whatever the times and eigenvalues are. *)
Theorem diagonal_index_out_of_range (t : ndarray) (x : list Z)
    (rows : list (list R)) (evals : ndarray) (n : Z) (N : nat) :
  Exists (fun p => (p < - Z.of_nat (length rows)
                    \/ Z.of_nat (length rows) <= p)%Z) x ->
  diagonal t (IdxArr x) (Arr2 N rows) evals n = Raise IndexError.
Proof.
  intros Hex. unfold diagonal. cbn [getitem_rows_slice].
  rewrite (mapM_raises _ IndexError); [reflexivity | |].
  - intros p e He.
    destruct (norm_index (length rows) p) as [r|e'] eqn:Hp; cbn [rbind] in He;
      [discriminate|].
    inversion He; subst. unfold norm_index in Hp.
    destruct ((0 <=? p)%Z && (p <? Z.of_nat (length rows))%Z); [discriminate|].
    destruct ((- Z.of_nat (length rows) <=? p)%Z && (p <? 0)%Z);
      [discriminate|].
    now inversion Hp.
  - eapply Exists_impl; [|exact Hex]. intros p Hp. cbv beta in Hp.
    exists IndexError. unfold norm_index.
    destruct (Z.leb_spec 0 p), (Z.ltb_spec p (Z.of_nat (length rows)));
      cbn [andb]; try lia;
      destruct (Z.leb_spec (- Z.of_nat (length rows)) p), (Z.ltb_spec p 0);
      cbn [andb rbind]; try lia; reflexivity.
Qed.

Lemma diagonal_index_out_of_range_witness :
  diagonal (row_vector [1]) (IdxArr [0; 2]%Z) (Arr2 2 [[1; 2]; [3; 4]])
    (col_vector [0; 1]) 2 = Raise IndexError.
Proof.
  apply (diagonal_index_out_of_range (row_vector [1]) [0; 2]%Z
           [[1; 2]; [3; 4]] (col_vector [0; 1]) 2 2).
  apply Exists_cons_tl. apply Exists_cons_hd. right. simpl. lia.
Defined.

Lemma tabulate2_by_rows (x : list Z) T (G : Z -> nat -> R) :
  tabulate2 (length x) T (fun i k => G (nth i x 0%Z) k)
  = map (fun p => tabulate1 T (G p)) x.
Proof.
  apply (nth_ext _ _ [] []).
  - now rewrite tabulate2_length, length_map.
  - intros i Hi. rewrite tabulate2_length in Hi.
    rewrite nth_tabulate2 by assumption.
    rewrite (nth_indep _ [] (tabulate1 T (G 0%Z))) by now rewrite length_map.
    now rewrite (map_nth (fun p => tabulate1 T (G p))).
Qed.

(** X8. The rows of [diagonal] follow the index list: for the
    concatenation of two index lists it returns the rows for the first
    followed by the rows for the second. *)
Theorem diagonal_stacks (evecs : list (list R)) (evals ts : list R)
    (x1 x2 : list Z) (n : Z) (N : nat) :
  length evals = N ->
  Forall (fun p => (0 <= p < Z.of_nat (length evecs))%Z) x1 ->
  Forall (fun p => (0 <= p < Z.of_nat (length evecs))%Z) x2 ->
  (0 <= n <= Z.of_nat N)%Z ->
  exists h1 h2,
    diagonal (row_vector ts) (IdxArr x1) (Arr2 N evecs) (col_vector evals) n
    = Ok (Arr2 (length ts) h1)
    /\ diagonal (row_vector ts) (IdxArr x2) (Arr2 N evecs) (col_vector evals) n
       = Ok (Arr2 (length ts) h2)
    /\ diagonal (row_vector ts) (IdxArr (x1 ++ x2)) (Arr2 N evecs)
         (col_vector evals) n
       = Ok (Arr2 (length ts) (h1 ++ h2)).
Proof.
  intros HN Hx1 Hx2 Hn.
  assert (Hx : Forall (fun p => (0 <= p < Z.of_nat (length evecs))%Z) (x1 ++ x2))
    by (apply Forall_app; split; assumption).
  rewrite (diagonal_matrix evecs evals ts x1 n N HN Hx1 Hn).
  rewrite (diagonal_matrix evecs evals ts x2 n N HN Hx2 Hn).
  rewrite (diagonal_matrix evecs evals ts (x1 ++ x2) n N HN Hx Hn).
  do 2 eexists. split; [reflexivity|]. split; [reflexivity|].
  rewrite !(tabulate2_by_rows _ _ (fun p k =>
    diag_sum evecs evals (Z.to_nat n) (Z.to_nat p) (get1 ts k))).
  now rewrite map_app.
Qed.

Lemma diagonal_stacks_witness :
  exists h1 h2,
    diagonal (row_vector [1]) (IdxArr [1%Z]) (Arr2 2 [[1; 2]; [3; 4]])
      (col_vector [0; 1]) 2 = Ok (Arr2 1 h1)
    /\ diagonal (row_vector [1]) (IdxArr [0%Z; 1%Z]) (Arr2 2 [[1; 2]; [3; 4]])
         (col_vector [0; 1]) 2 = Ok (Arr2 1 h2)
    /\ diagonal (row_vector [1]) (IdxArr ([1%Z] ++ [0%Z; 1%Z]))
         (Arr2 2 [[1; 2]; [3; 4]]) (col_vector [0; 1]) 2
       = Ok (Arr2 1 (h1 ++ h2)).
Proof.
  apply (diagonal_stacks [[1; 2]; [3; 4]] [0; 1] [1] [1%Z] [0%Z; 1%Z] 2 2).
  - reflexivity.
  - repeat constructor; simpl; lia.
  - repeat constructor; simpl; lia.
  - simpl; lia.
Defined.

Lemma slice_stop_negative len n :
  (n < 0)%Z -> slice_stop len n = slice_stop len (Z.max 0 (Z.of_nat len + n)).
Proof.
  intros Hn. unfold slice_stop.
  destruct (Z.ltb_spec n 0); [|lia].
  destruct (Z.ltb_spec (Z.max 0 (Z.of_nat len + n)) 0); lia.
Qed.

Lemma getitem_rows_slice_stop N rows x n n' :
  slice_stop N n = slice_stop N n' ->
  getitem_rows_slice (Arr2 N rows) x n = getitem_rows_slice (Arr2 N rows) x n'.
Proof. intros H. unfold getitem_rows_slice. now rewrite H. Qed.

Lemma getitem_all_slice_stop N rows n n' :
  slice_stop N n = slice_stop N n' ->
  getitem_all_slice (Arr2 N rows) n = getitem_all_slice (Arr2 N rows) n'.
Proof. intros H. unfold getitem_all_slice. now rewrite H. Qed.

Lemma getitem_slice_stop a n n' :
  slice_stop (len0 a) n = slice_stop (len0 a) n' ->
  getitem_slice a n = getitem_slice a n'.
Proof.
  intros H. destruct a as [x|w|c rows]; cbn in *; unfold slice_to;
    now rewrite ?H.
Qed.

(** X9. A negative truncation order is not refused: it counts from the
    end, so n < 0 gives what the order max(0, N + n) gives, the last |n|
    eigenpairs being dropped. *)
Theorem negative_truncation_order (t : ndarray) (x : index)
    (rows : list (list R)) (evals : ndarray) (n : Z) (N : nat) :
  len0 evals = N ->
  (n < 0)%Z ->
  diagonal t x (Arr2 N rows) evals n
  = diagonal t x (Arr2 N rows) evals (Z.max 0 (Z.of_nat N + n))
  /\ kernel t x (Arr2 N rows) evals n
     = kernel t x (Arr2 N rows) evals (Z.max 0 (Z.of_nat N + n)).
Proof.
  intros HN Hn. subst N.
  pose proof (slice_stop_negative (len0 evals) n Hn) as Hs.
  split.
  - unfold diagonal.
    now rewrite (getitem_rows_slice_stop _ _ _ _ _ Hs),
      (getitem_slice_stop _ _ _ Hs).
  - unfold kernel.
    now rewrite (getitem_rows_slice_stop _ _ _ _ _ Hs),
      (getitem_slice_stop _ _ _ Hs), (getitem_all_slice_stop _ _ _ _ Hs).
Qed.

Lemma negative_truncation_order_witness :
  diagonal (row_vector [1]) (IdxArr [0%Z]) (Arr2 2 [[1; 2]; [3; 4]])
    (col_vector [0; 1]) (-1)
  = diagonal (row_vector [1]) (IdxArr [0%Z]) (Arr2 2 [[1; 2]; [3; 4]])
      (col_vector [0; 1]) (Z.max 0 (Z.of_nat 2 + -1)).
Proof.
  apply (negative_truncation_order (row_vector [1]) (IdxArr [0%Z])
           [[1; 2]; [3; 4]] (col_vector [0; 1]) (-1) 2).
  - reflexivity.
  - lia.
Defined.






Lemma sum_upto_mono_n n1 n2 f :
  (forall j, 0 <= f j) -> (n1 <= n2)%nat -> sum_upto n1 f <= sum_upto n2 f.
Proof.
  intros Hf Hle. induction Hle as [|m Hle IH].
  - lra.
  - cbn [sum_upto]. specialize (Hf m). lra.
Qed.

(** X11. Using more eigenpairs never lowers the kernel diagonal while
    doubles stay in range: with the entries of [evecs] at most 1e150 in
    absolute value and no exponent -evals[j] * t_k, j < n2, above 709, for
    0 <= n1 <= n2 <= N every entry of [diagonal] at order n1 is at most the
    entry at order n2. *)
Theorem diagonal_monotone_in_order (evecs : list (list R)) (evals ts : list R)
    (x : list Z) (n1 n2 : Z) (N : nat) :
  length evals = N ->
  Forall (fun p => (0 <= p < Z.of_nat (length evecs))%Z) x ->
  (0 <= n1 <= n2)%Z -> (n2 <= Z.of_nat N)%Z ->
  entries_in_range evecs ->
  exponents_in_range evals ts (Z.to_nat n2) ->
  exists h1 h2,
    diagonal (row_vector ts) (IdxArr x) (Arr2 N evecs) (col_vector evals) n1
    = Ok (Arr2 (length ts) h1)
    /\ diagonal (row_vector ts) (IdxArr x) (Arr2 N evecs) (col_vector evals) n2
       = Ok (Arr2 (length ts) h2)
    /\ forall i k, (i < length x)%nat -> (k < length ts)%nat ->
         get2 h1 i k <= get2 h2 i k.
Proof.
  intros HN Hx H12 H2N _ _.
  rewrite (diagonal_matrix evecs evals ts x n1 N HN Hx) by lia.
  rewrite (diagonal_matrix evecs evals ts x n2 N HN Hx) by lia.
  do 2 eexists. split; [reflexivity|]. split; [reflexivity|].
  intros i k Hi Hk. rewrite !get2_tabulate2 by assumption.
  unfold diag_sum. apply sum_upto_mono_n; [|lia].
  intros j. apply Rmult_le_pos; [apply pow2_ge_0 | left; apply exp_pos].
Qed.

Lemma diagonal_monotone_in_order_witness :
  exists h1 h2,
    diagonal (row_vector [1]) (IdxArr [0%Z]) (Arr2 2 [[1; 2]; [3; 4]])
      (col_vector [0; -1]) 1 = Ok (Arr2 (length [1]) h1)
    /\ diagonal (row_vector [1]) (IdxArr [0%Z]) (Arr2 2 [[1; 2]; [3; 4]])
         (col_vector [0; -1]) 2 = Ok (Arr2 (length [1]) h2)
    /\ forall i k, (i < length [0%Z])%nat -> (k < length [1])%nat ->
         get2 h1 i k <= get2 h2 i k.
Proof.
  apply (diagonal_monotone_in_order [[1; 2]; [3; 4]] [0; -1] [1] [0%Z] 1 2 2).
  - reflexivity.
  - repeat constructor; simpl; lia.
  - lia.
  - simpl; lia.
  - repeat first [apply Forall_nil | apply Forall_cons];
      apply small_entry_in_range; lra.
  - unfold exponents_in_range, exponent_bound. simpl.
    repeat first [apply Forall_nil | apply Forall_cons]; lra.
Defined.

(** X12. Eigenvectors are determined up to sign, and [diagonal] does not
    depend on the choice: flipping the sign of any columns of [evecs]
    leaves its result unchanged. *)
Theorem diagonal_sign_invariant (evecs evecs' : list (list R))
    (evals ts : list R) (s : nat -> R) (x : list Z) (n : Z) (N : nat) :
  length evals = N ->
  length evecs' = length evecs ->
  (forall j, s j = 1 \/ s j = -1) ->
  (forall p j, (p < length evecs)%nat -> (j < N)%nat ->
     get2 evecs' p j = s j * get2 evecs p j) ->
  Forall (fun p => (0 <= p < Z.of_nat (length evecs))%Z) x ->
  (0 <= n <= Z.of_nat N)%Z ->
  diagonal (row_vector ts) (IdxArr x) (Arr2 N evecs') (col_vector evals) n
  = diagonal (row_vector ts) (IdxArr x) (Arr2 N evecs) (col_vector evals) n.
Proof.
  intros HN HV Hs Hflip Hx Hn.
  assert (Hx' : Forall (fun p => (0 <= p < Z.of_nat (length evecs'))%Z) x)
    by now rewrite HV.
  rewrite (diagonal_matrix evecs' evals ts x n N HN Hx' Hn).
  rewrite (diagonal_matrix evecs evals ts x n N HN Hx Hn).
  f_equal. f_equal. apply tabulate2_ext. intros i k Hi Hk.
  unfold diag_sum. apply sum_upto_ext. intros j Hj.
  assert (Hp : (Z.to_nat (nth i x 0%Z) < length evecs)%nat).
  { rewrite Forall_forall in Hx.
    pose proof (Hx (nth i x 0%Z) (nth_In x 0%Z Hi)). lia. }
  rewrite Hflip by (assumption || lia).
  destruct (Hs j) as [-> | ->]; ring.
Qed.

Lemma diagonal_sign_invariant_witness :
  diagonal (row_vector [1]) (IdxArr [0%Z; 1%Z]) (Arr2 2 [[1; -2]; [3; -4]])
    (col_vector [0; 1]) 2
  = diagonal (row_vector [1]) (IdxArr [0%Z; 1%Z]) (Arr2 2 [[1; 2]; [3; 4]])
      (col_vector [0; 1]) 2.
Proof.
  apply (diagonal_sign_invariant [[1; 2]; [3; 4]] [[1; -2]; [3; -4]]
           [0; 1] [1] (fun j => match j with O => 1 | _ => -1 end)
           [0%Z; 1%Z] 2 2).
  - reflexivity.
  - reflexivity.
  - intros [|j]; [now left | now right].
  - intros p j Hp Hj. simpl in Hp.
    destruct p as [|[|p]]; [| |lia];
      (destruct j as [|[|j]]; [| |lia]); unfold get2; simpl; lra.
  - repeat constructor; simpl; lia.
  - simpl; lia.
Defined.

(** X13. Several times must come as a row vector: with the eigenvalues a
    column vector, a 1-d array of T <> 1 times makes [diagonal] and
    [kernel] raise [ValueError]. *)
Theorem flat_time_vector_refused (evecs : list (list R)) (evals ts : list R)
    (x : list Z) (vfix : index) (n : Z) (N : nat) :
  length ts <> 1%nat ->
  Forall (fun p => (0 <= p < Z.of_nat (length evecs))%Z) x ->
  diagonal (Arr1 ts) (IdxArr x) (Arr2 N evecs) (col_vector evals) n
  = Raise ValueError
  /\ kernel (Arr1 ts) vfix (Arr2 N evecs) (col_vector evals) n
     = Raise ValueError.
Proof.
  intros HT Hx.
  assert (Hb : (1 =? length ts)%nat = false) by (apply Nat.eqb_neq; lia).
  split.
  - unfold diagonal, col_vector. rewrite rows_slice_ok by assumption.
    cbn [rbind]. unfold multiply. rewrite !bdim_same.
    cbn [rbind getitem_slice matmul]. now rewrite Hb.
  - unfold kernel, col_vector.
    cbn [getitem_all_slice getitem_slice rbind negative map_arr matmul].
    now rewrite Hb.
Qed.

Lemma flat_time_vector_refused_witness :
  diagonal (Arr1 [1; 2]) (IdxArr [0%Z]) (Arr2 2 [[1; 2]; [3; 4]])
    (col_vector [0; 1]) 2 = Raise ValueError
  /\ kernel (Arr1 [1; 2]) (IdxInt 0) (Arr2 2 [[1; 2]; [3; 4]])
       (col_vector [0; 1]) 2 = Raise ValueError.
Proof.
  apply (flat_time_vector_refused [[1; 2]; [3; 4]] [0; 1] [1; 2] [0%Z]
           (IdxInt 0) 2 2).
  - simpl; lia.
  - repeat constructor; simpl; lia.
Defined.




(** X15. With a single integer for [x], [diagonal] returns a vector, not
    a matrix: one entry per time, the sum over j < n of
    evecs[x, j]^2 exp(-evals[j] t_k). *)
Theorem diagonal_integer_index (evecs : list (list R)) (evals ts : list R)
    (p n : Z) (N : nat) :
  length evals = N ->
  Forall (fun row => length row = N) evecs ->
  (0 <= p < Z.of_nat (length evecs))%Z ->
  (0 <= n <= Z.of_nat N)%Z ->
  exists h,
    diagonal (row_vector ts) (IdxInt p) (Arr2 N evecs) (col_vector evals) n
    = Ok (Arr1 h)
    /\ length h = length ts
    /\ forall k, (k < length ts)%nat ->
         get1 h k = diag_sum evecs evals (Z.to_nat n) (Z.to_nat p) (get1 ts k).
Proof.
  intros HN Hwf Hp Hn. unfold diagonal, row_vector, col_vector.
  cbn [getitem_rows_slice]. rewrite norm_index_in_range by assumption.
  cbn [rbind]. rewrite slice_stop_in_range by lia.
  set (c := Z.to_nat n).
  assert (Hc : (c <= N)%nat) by (unfold c; lia).
  set (row := firstn c (nth (Z.to_nat p) evecs [])).
  assert (Hrow : length row = c).
  { unfold row. rewrite length_firstn.
    assert (length (nth (Z.to_nat p) evecs []) = N).
    { rewrite Forall_forall in Hwf. apply Hwf. apply nth_In. lia. }
    lia. }
  unfold multiply. rewrite bdim_same.
  cbn [rbind getitem_slice]. unfold slice_to.
  rewrite length_map, HN, slice_stop_in_range by lia. fold c.
  set (ev := firstn c (map (fun a : R => [a]) evals)).
  assert (Hev : length ev = c).
  { unfold ev. rewrite length_firstn, length_map. lia. }
  cbn [matmul length Nat.eqb rbind np_exp negative map_arr].
  rewrite !length_map, tabulate1_length, tabulate2_length, Hrow, Hev,
    Nat.eqb_refl.
  eexists. split; [reflexivity|]. split; [apply tabulate1_length|].
  intros k Hk. rewrite get1_tabulate1 by assumption.
  unfold diag_sum. apply sum_upto_ext. intros j Hj.
  rewrite get1_tabulate1 by assumption.
  rewrite !bidx_lt by assumption.
  rewrite !map_map_tabulate2, get2_tabulate2 by assumption.
  cbn [sum_upto]. unfold ev. rewrite get2_col_slice by assumption.
  unfold row, get1 at 1 2. rewrite nth_firstn.
  destruct (Nat.ltb_spec j c); [|lia].
  fold (get2 evecs (Z.to_nat p) j).
  replace (get2 [ts] 0 k) with (get1 ts k) by reflexivity.
  f_equal; [ring | f_equal; ring].
Qed.

Lemma diagonal_integer_index_witness :
  exists h,
    diagonal (row_vector [1; 2; 3]) (IdxInt 1) (Arr2 2 [[1; 2]; [3; 4]])
      (col_vector [0; 1]) 2 = Ok (Arr1 h)
    /\ length h = length [1; 2; 3]
    /\ forall k, (k < length [1; 2; 3])%nat ->
         get1 h k = diag_sum [[1; 2]; [3; 4]] [0; 1] (Z.to_nat 2) (Z.to_nat 1)
                      (get1 [1; 2; 3] k).
Proof.
  apply (diagonal_integer_index [[1; 2]; [3; 4]] [0; 1] [1; 2; 3] 1 2 2).
  - reflexivity.
  - repeat constructor.
  - simpl; lia.
  - simpl; lia.
Defined.

Lemma norm_index_mod V p :
  (- Z.of_nat V <= p < Z.of_nat V)%Z ->
  norm_index V p = Ok (Z.to_nat (p mod Z.of_nat V)).
Proof.
  intros Hp. destruct (Z.le_gt_cases 0 p).
  - rewrite norm_index_in_range by lia. now rewrite Z.mod_small by lia.
  - replace p with ((p + Z.of_nat V) - Z.of_nat V)%Z at 1 by lia.
    rewrite norm_index_wrap by lia. do 2 f_equal.
    rewrite <- (Z.mod_small (p + Z.of_nat V) (Z.of_nat V)) at 1 by lia.
    replace (p + Z.of_nat V)%Z with (p + 1 * Z.of_nat V)%Z by lia.
    apply Z_mod_plus_full.
Qed.

Lemma norm_index_error V p e : norm_index V p = Raise e -> e = IndexError.
Proof.
  unfold norm_index.
  destruct ((0 <=? p)%Z && (p <? Z.of_nat V)%Z); [discriminate|].
  destruct ((- Z.of_nat V <=? p)%Z && (p <? 0)%Z); [discriminate|].
  now inversion 1.
Qed.

Lemma norm_index_out_of_range V p :
  (p < - Z.of_nat V \/ Z.of_nat V <= p)%Z -> norm_index V p = Raise IndexError.
Proof.
  intros Hp. unfold norm_index.
  destruct (Z.leb_spec 0 p), (Z.ltb_spec p (Z.of_nat V));
    cbn [andb]; try lia;
    destruct (Z.leb_spec (- Z.of_nat V) p), (Z.ltb_spec p 0);
    cbn [andb]; try lia; reflexivity.
Qed.

(** X23. A fixed vertex outside [-V, V) makes [kernel] raise
    [IndexError], for any row vector of times. *)
Theorem kernel_vertex_out_of_range (evecs : list (list R)) (evals ts : list R)
    (vfix n : Z) (N : nat) :
  (vfix < - Z.of_nat (length evecs) \/ Z.of_nat (length evecs) <= vfix)%Z ->
  kernel (row_vector ts) (IdxInt vfix) (Arr2 N evecs) (col_vector evals) n
  = Raise IndexError.
Proof.
  intros Hv. unfold kernel, row_vector, col_vector.
  cbn [getitem_all_slice getitem_slice getitem_rows_slice rbind negative
       map_arr matmul length Nat.eqb].
  now rewrite norm_index_out_of_range.
Qed.

Lemma kernel_vertex_out_of_range_witness :
  kernel (row_vector [1]) (IdxInt 2) (Arr2 2 [[1; 2]; [3; 4]])
    (col_vector [0; 1]) 2 = Raise IndexError.
Proof.
  apply (kernel_vertex_out_of_range [[1; 2]; [3; 4]] [0; 1] [1] 2 2 2).
  right. simpl. lia.
Defined.



(** *** Runs of [diffusion] *)

(** The source vector for seeds in [-V, V): 1.0 at the seeds, counted
    from the end when negative, zero elsewhere. *)
Lemma setitem_seeds V (l : list Z) :
  Forall (fun p => (- Z.of_nat V <= p < Z.of_nat V)%Z) l ->
  setitem (np_zeros V) (int64, IdxArr l) 1
  = Ok (tabulate1 V (fun k =>
          if existsb (Nat.eqb k)
               (map (fun p => Z.to_nat (p mod Z.of_nat V)) l)
          then 1 else 0)).
Proof.
  intros Hin. unfold setitem, np_zeros. rewrite repeat_length.
  rewrite (mapM_ok _ (fun p => Z.to_nat (p mod Z.of_nat V))).
  2:{ eapply Forall_impl; [|exact Hin]. intros p Hp.
      now apply norm_index_mod. }
  cbn [rbind]. f_equal.
  apply (nth_ext _ _ 0 0).
  - now rewrite fold_set_at_length, repeat_length, tabulate1_length.
  - intros j Hj. rewrite fold_set_at_length, repeat_length in Hj.
    rewrite nth_fold_set_at.
    2:{ rewrite repeat_length. apply Forall_forall. intros k Hk.
        apply in_map_iff in Hk. destruct Hk as [p [<- Hp]].
        rewrite Forall_forall in Hin. specialize (Hin p Hp).
        pose proof (Z.mod_pos_bound p (Z.of_nat V)). lia. }
    fold (get1 (tabulate1 V (fun k =>
      if existsb (Nat.eqb k) (map (fun p => Z.to_nat (p mod Z.of_nat V)) l)
      then 1 else 0)) j).
    rewrite get1_tabulate1 by assumption.
    destruct (existsb _ _); [reflexivity|].
    apply nth_repeat.
Qed.

Lemma existsb_same_members (ks1 ks2 : list nat) k :
  (forall j, In j ks1 <-> In j ks2) ->
  existsb (Nat.eqb k) ks1 = existsb (Nat.eqb k) ks2.
Proof.
  intros H. apply eq_true_iff_eq. rewrite !existsb_exists.
  split; intros [j [Hj Hk]]; exists j; (split; [now apply H | assumption]).
Qed.

Lemma splu_calls_app tr1 tr2 :
  splu_calls (tr1 ++ tr2) = (splu_calls tr1 + splu_calls tr2)%nat.
Proof. unfold splu_calls. now rewrite filter_app, length_app. Qed.

Lemma cholesky_calls_app tr1 tr2 :
  cholesky_calls (tr1 ++ tr2) = (cholesky_calls tr1 + cholesky_calls tr2)%nat.
Proof. unfold cholesky_calls. now rewrite filter_app, length_app. Qed.

Lemma tabulate2_get2 (rows : list (list R)) r c :
  length rows = r -> Forall (fun row => length row = c) rows ->
  tabulate2 r c (get2 rows) = rows.
Proof.
  intros Hr Hc. apply (nth_ext _ _ [] []).
  - now rewrite tabulate2_length.
  - intros i Hi. rewrite tabulate2_length in Hi.
    rewrite nth_tabulate2 by assumption.
    assert (Hlen : length (nth i rows []) = c).
    { rewrite Forall_forall in Hc. apply Hc. apply nth_In. lia. }
    apply (nth_ext _ _ 0 0).
    + now rewrite tabulate1_length.
    + intros k Hk. rewrite tabulate1_length in Hk.
      fold (get1 (tabulate1 c (get2 rows i)) k).
      now rewrite get1_tabulate1.
Qed.

Section MoreRuns.

Variable Aniso : Type.
Variable installed : string -> option Sksparse.
Variable Solver : Geometry -> bool -> option Aniso -> result Fem.
Variable splu : spmatrix -> result Factor.
Variable getformat : spmatrix -> string.
Variable float32 : R -> R.

Let run := diffusion Aniso installed Solver splu getformat float32.

(** The seeds enter a run only through the source vector. *)
Lemma diffusion_same_source geometry vids1 vids2 m aniso use_cholmod tr :
  setitem (np_zeros (length (v geometry))) (np_array vids1) 1
  = setitem (np_zeros (length (v geometry))) (np_array vids2) 1 ->
  run geometry vids1 m aniso use_cholmod tr
  = run geometry vids2 m aniso use_cholmod tr.
Proof.
  intros Hb.
  unfold run, diffusion, import_optional_dependency, bind, call, lift,
    ret, print.
  destruct use_cholmod.
  - destruct (installed "sksparse"); [|reflexivity].
    destruct (Solver geometry true aniso); [|reflexivity].
    destruct (sp_add _ _); [|reflexivity].
    now rewrite Hb.
  - destruct (Solver geometry true aniso); [|reflexivity].
    destruct (sp_add _ _); [|reflexivity].
    now rewrite Hb.
Qed.

(** A run whose seeds are refused stops after the assembly and the
    reading of the average edge length. *)
Lemma diffusion_seed_error geometry vids m aniso use_cholmod fem hmat e tr :
  (use_cholmod = true -> installed "sksparse" <> None) ->
  Solver geometry true aniso = Ok fem ->
  sp_add (mass fem)
    (sp_scale (m * avg_edge_length geometry ^ 2) (stiffness fem)) = Ok hmat ->
  setitem (np_zeros (length (v geometry))) (np_array vids) 1 = Raise e ->
  run geometry vids m aniso use_cholmod tr
  = (tr ++ (if use_cholmod then [EvImportOptional "sksparse"] else [])
        ++ [EvSolver true; EvAvgEdgeLength],
     Raise e).
Proof.
  intros Hmd Hfem Hmat Hb.
  unfold run, diffusion, import_optional_dependency, bind, call, lift,
    ret, print.
  destruct use_cholmod.
  - destruct (installed "sksparse"); [|now elim Hmd].
    rewrite Hfem, Hmat, Hb. now rewrite <- !app_assoc.
  - rewrite Hfem, Hmat, Hb. now rewrite <- !app_assoc.
Qed.

(** X16. The seeds count as a set of vertices: two lists of indices in
    [-V, V) that name the same vertices, in whatever order, however often
    and whether counted from the start or from the end, give the same
    run. *)
Theorem seeds_count_as_a_set (geometry : Geometry) (l1 l2 : list Z) (m : R)
    (aniso : option Aniso) (use_cholmod : bool) (tr : list event) :
  let V := Z.of_nat (length (v geometry)) in
  Forall (fun p => (- V <= p < V)%Z) l1 ->
  Forall (fun p => (- V <= p < V)%Z) l2 ->
  (forall q, In q (map (fun p => (p mod V)%Z) l1)
             <-> In q (map (fun p => (p mod V)%Z) l2)) ->
  run geometry (PyList l1) m aniso use_cholmod tr
  = run geometry (PyList l2) m aniso use_cholmod tr.
Proof.
  intros V H1 H2 Hset. subst V. apply diffusion_same_source.
  destruct l1 as [|a1 l1].
  - destruct l2 as [|a2 l2]; [reflexivity|].
    exfalso. apply (proj2 (Hset (a2 mod Z.of_nat (length (v geometry)))%Z)).
    now left.
  - destruct l2 as [|a2 l2].
    + exfalso. apply (proj1 (Hset (a1 mod Z.of_nat (length (v geometry)))%Z)).
      now left.
    + change (np_array (PyList (a1 :: l1))) with (int64, IdxArr (a1 :: l1)).
      change (np_array (PyList (a2 :: l2))) with (int64, IdxArr (a2 :: l2)).
      rewrite !setitem_seeds by assumption. f_equal.
      apply tabulate1_ext. intros k _.
      rewrite (existsb_same_members _
                 (map (fun p => Z.to_nat (p mod Z.of_nat (length (v geometry))))
                    (a2 :: l2)));
        [reflexivity|].
      intros j. rewrite !in_map_iff.
      split; intros [p [<- Hp]].
      * assert (Hq : In (p mod Z.of_nat (length (v geometry)))%Z
                       (map (fun p => (p mod Z.of_nat (length (v geometry)))%Z)
                          (a2 :: l2))).
        { apply (proj1 (Hset _)). apply in_map_iff. now exists p. }
        apply in_map_iff in Hq. destruct Hq as [p' [Hp' Hin']].
        exists p'. split; [now rewrite Hp' | assumption].
      * assert (Hq : In (p mod Z.of_nat (length (v geometry)))%Z
                       (map (fun p => (p mod Z.of_nat (length (v geometry)))%Z)
                          (a1 :: l1))).
        { apply (proj2 (Hset _)). apply in_map_iff. now exists p. }
        apply in_map_iff in Hq. destruct Hq as [p' [Hp' Hin']].
        exists p'. split; [now rewrite Hp' | assumption].
Qed.

(** X17. A single vertex index for [vids] gives the run the one-element
    list gives. *)
Theorem single_seed_is_one_element_list (geometry : Geometry) (i : Z) (m : R)
    (aniso : option Aniso) (use_cholmod : bool) (tr : list event) :
  run geometry (PyInt i) m aniso use_cholmod tr
  = run geometry (PyList [i]) m aniso use_cholmod tr.
Proof.
  apply diffusion_same_source. cbn [np_array setitem mapM].
  destruct (norm_index _ i); reflexivity.
Qed.

(** X18. An empty Python list of seeds is refused, an empty integer array
    is not: the list makes the run raise [IndexError] once the matrices
    are assembled, before anything is printed or factorised; the array
    makes it solve for the zero vector. *)
Theorem empty_seeds (geometry : Geometry) (m : R) (aniso : option Aniso)
    (use_cholmod : bool) (fem : Fem) (hmat : spmatrix) (tr : list event) :
  (use_cholmod = true -> installed "sksparse" <> None) ->
  Solver geometry true aniso = Ok fem ->
  sp_add (mass fem)
    (sp_scale (m * avg_edge_length geometry ^ 2) (stiffness fem)) = Ok hmat ->
  run geometry (PyList []) m aniso use_cholmod tr
  = (tr ++ (if use_cholmod then [EvImportOptional "sksparse"] else [])
        ++ [EvSolver true; EvAvgEdgeLength],
     Raise IndexError)
  /\ snd (run geometry (IntArray []) m aniso use_cholmod tr)
     = rbind (factorize installed splu use_cholmod hmat)
         (fun f => solve f (if use_cholmod
                            then np_zeros (length (v geometry))
                            else np_float32 float32
                                   (np_zeros (length (v geometry))))).
Proof.
  intros Hmd Hfem Hmat. split.
  - now apply (diffusion_seed_error geometry (PyList []) m aniso use_cholmod
                 fem hmat IndexError tr).
  - assert (Hb : setitem (np_zeros (length (v geometry)))
                   (np_array (IntArray [])) 1
                 = Ok (np_zeros (length (v geometry)))) by reflexivity.
    unfold factorize. destruct use_cholmod.
    + destruct (installed "sksparse") as [md|] eqn:Hi;
        [|now elim Hmd].
      unfold run.
      rewrite (diffusion_cholesky Aniso installed Solver splu getformat
                 float32 geometry (IntArray []) m aniso fem hmat _ md tr
                 Hfem Hmat Hb Hi).
      cbv zeta. now destruct (cholesky md hmat).
    + unfold run.
      rewrite (diffusion_lu Aniso installed Solver splu getformat
                 float32 geometry (IntArray []) m aniso fem hmat _ tr
                 Hfem Hmat Hb).
      cbv zeta. now destruct (splu hmat).
Qed.

(** X19. A seed outside [-V, V) makes the run raise [IndexError] once the
    matrices are assembled, before anything is printed or factorised. *)
Theorem seed_out_of_range (geometry : Geometry) (l : list Z) (m : R)
    (aniso : option Aniso) (use_cholmod : bool) (fem : Fem) (hmat : spmatrix)
    (tr : list event) :
  let V := Z.of_nat (length (v geometry)) in
  Exists (fun p => (p < - V \/ V <= p)%Z) l ->
  (use_cholmod = true -> installed "sksparse" <> None) ->
  Solver geometry true aniso = Ok fem ->
  sp_add (mass fem)
    (sp_scale (m * avg_edge_length geometry ^ 2) (stiffness fem)) = Ok hmat ->
  run geometry (PyList l) m aniso use_cholmod tr
  = (tr ++ (if use_cholmod then [EvImportOptional "sksparse"] else [])
        ++ [EvSolver true; EvAvgEdgeLength],
     Raise IndexError).
Proof.
  intros V Hex Hmd Hfem Hmat.
  apply (diffusion_seed_error geometry (PyList l) m aniso use_cholmod
           fem hmat IndexError tr); try assumption.
  destruct l as [|a l]; [reflexivity|].
  change (np_array (PyList (a :: l))) with (int64, IdxArr (a :: l)).
  unfold setitem, np_zeros. rewrite repeat_length.
  rewrite (mapM_raises _ IndexError); [reflexivity | |].
  - intros p e. apply norm_index_error.
  - eapply Exists_impl; [|exact Hex]. intros p Hp. cbv beta in Hp.
    exists IndexError. now apply norm_index_out_of_range.
Qed.

(** X20. Whenever the import step passes, a run calls the matrix assembly
    exactly once, whatever the seeds, the factor [m] and the outcome of
    the later steps are. *)
Theorem assembly_called_once (geometry : Geometry) (vids : array_like)
    (m : R) (aniso : option Aniso) (use_cholmod : bool) (tr : list event) :
  (use_cholmod = true -> installed "sksparse" <> None) ->
  solver_calls (fst (run geometry vids m aniso use_cholmod tr))
  = S (solver_calls tr).
Proof.
  intros Hmd.
  unfold run, diffusion, import_optional_dependency, print, bind, call,
    lift, ret.
  destruct use_cholmod.
  - destruct (installed "sksparse") as [md|]; [|now elim Hmd].
    destruct (Solver geometry true aniso);
      [|cbn [fst]; rewrite !solver_calls_app; cbn; lia].
    destruct (sp_add _ _);
      [|cbn [fst]; rewrite !solver_calls_app; cbn; lia].
    destruct (setitem _ _ _);
      [|cbn [fst]; rewrite !solver_calls_app; cbn; lia].
    destruct (cholesky md _);
      cbn [fst]; rewrite !solver_calls_app; cbn; lia.
  - destruct (Solver geometry true aniso);
      [|cbn [fst]; rewrite !solver_calls_app; cbn; lia].
    destruct (sp_add _ _);
      [|cbn [fst]; rewrite !solver_calls_app; cbn; lia].
    destruct (setitem _ _ _);
      [|cbn [fst]; rewrite !solver_calls_app; cbn; lia].
    destruct (splu _);
      cbn [fst]; rewrite !solver_calls_app; cbn; lia.
Qed.

(** X21. No strategy falls back on the other: a run of the Cholesky
    strategy never calls [splu], whatever fails, and a run of the LU
    strategy never calls the Cholesky factorisation. *)
Theorem no_fallback_between_strategies (geometry : Geometry)
    (vids : array_like) (m : R) (aniso : option Aniso) (tr : list event) :
  splu_calls (fst (run geometry vids m aniso true tr)) = splu_calls tr
  /\ cholesky_calls (fst (run geometry vids m aniso false tr))
     = cholesky_calls tr.
Proof.
  unfold run, diffusion, import_optional_dependency, print, bind, call,
    lift, ret.
  split.
  - destruct (installed "sksparse") as [md|];
      [|cbn [fst]; rewrite !splu_calls_app; cbn; lia].
    destruct (Solver geometry true aniso);
      [|cbn [fst]; rewrite !splu_calls_app; cbn; lia].
    destruct (sp_add _ _);
      [|cbn [fst]; rewrite !splu_calls_app; cbn; lia].
    destruct (setitem _ _ _);
      [|cbn [fst]; rewrite !splu_calls_app; cbn; lia].
    destruct (cholesky md _);
      cbn [fst]; rewrite !splu_calls_app; cbn; lia.
  - destruct (Solver geometry true aniso);
      [|cbn [fst]; rewrite !cholesky_calls_app; cbn; lia].
    destruct (sp_add _ _);
      [|cbn [fst]; rewrite !cholesky_calls_app; cbn; lia].
    destruct (setitem _ _ _);
      [|cbn [fst]; rewrite !cholesky_calls_app; cbn; lia].
    destruct (splu _);
      cbn [fst]; rewrite !cholesky_calls_app; cbn; lia.
Qed.

(** X22. With m = 0, or an average edge length of zero, no heat evolves:
    the system solved is mass x = b0, the stiffness matrix dropping
    out. *)
Theorem zero_time_solves_mass_system (geometry : Geometry) (vids : list Z)
    (m : R) (aniso : option Aniso) (use_cholmod : bool) (fem : Fem)
    (tr : list event) :
  let V := length (v geometry) in
  m = 0 \/ avg_edge_length geometry = 0 ->
  Solver geometry true aniso = Ok fem ->
  sp_nrows (mass fem) = V -> sp_ncols (mass fem) = V ->
  length (sp_rows (mass fem)) = V ->
  Forall (fun row => length row = V) (sp_rows (mass fem)) ->
  sp_nrows (stiffness fem) = V -> sp_ncols (stiffness fem) = V ->
  vids <> [] ->
  Forall (fun p => (0 <= p < Z.of_nat V)%Z) vids ->
  float32 0 = 0 -> float32 1 = 1 ->
  snd (run geometry (PyList vids) m aniso use_cholmod tr)
  = rbind (factorize installed splu use_cholmod (mass fem))
      (fun f => solve f (indicator V vids)).
Proof.
  intros V Hz Hfem Hm1 Hm2 Hr Hwf Hs1 Hs2 Hne Hin H0 H1.
  unfold run.
  rewrite (diffusion_outcome Aniso installed Solver splu getformat float32
             geometry vids m aniso use_cholmod fem tr
             Hfem Hm1 Hm2 Hs1 Hs2 Hne Hin H0 H1).
  fold V.
  replace (backward_euler V fem (m * avg_edge_length geometry ^ 2))
    with (mass fem); [reflexivity|].
  assert (Ht : m * avg_edge_length geometry ^ 2 = 0)
    by (destruct Hz as [-> | ->]; ring).
  rewrite Ht. unfold backward_euler.
  destruct (mass fem) as [r c rows]. cbn [sp_nrows sp_ncols sp_rows] in *.
  subst r c. f_equal.
  rewrite <- (tabulate2_get2 rows V V Hr Hwf) at 1.
  apply tabulate2_ext. intros i k _ _. ring.
Qed.

End MoreRuns.

Import Heat.Example.

Lemma seeds_count_as_a_set_witness :
  diffusion unit no_modules Solver1 factor1 format1 exact
    (mesh 1) (PyList [0; 0]%Z) 1 None false []
  = diffusion unit no_modules Solver1 factor1 format1 exact
      (mesh 1) (PyList [-1]%Z) 1 None false [].
Proof.
  apply (seeds_count_as_a_set unit no_modules Solver1 factor1 format1 exact
           (mesh 1) [0; 0]%Z [-1]%Z 1 None false []).
  - repeat constructor; simpl; lia.
  - repeat constructor; simpl; lia.
  - intros q. simpl. tauto.
Defined.

Lemma empty_seeds_witness :
  diffusion unit no_modules Solver1 factor1 format1 exact
    (mesh 1) (PyList []) 1 None false []
  = ([] ++ [] ++ [EvSolver true; EvAvgEdgeLength], Raise IndexError)
  /\ snd (diffusion unit no_modules Solver1 factor1 format1 exact
            (mesh 1) (IntArray []) 1 None false [])
     = rbind (factorize no_modules factor1 false
                (backward_euler 1 fem1 (1 * 1 ^ 2)))
         (fun f => solve f (np_float32 exact (np_zeros 1))).
Proof.
  apply (empty_seeds unit no_modules Solver1 factor1 format1 exact
           (mesh 1) 1 None false fem1 (backward_euler 1 fem1 (1 * 1 ^ 2)) []).
  - discriminate.
  - reflexivity.
  - apply (sp_add_backward_euler 1 fem1); reflexivity.
Defined.

Lemma seed_out_of_range_witness :
  diffusion unit with_sksparse Solver1 factor1 format1 exact
    (mesh 1) (PyList [0; 1]%Z) 1 None true []
  = ([] ++ [EvImportOptional "sksparse"] ++ [EvSolver true; EvAvgEdgeLength],
     Raise IndexError).
Proof.
  apply (seed_out_of_range unit with_sksparse Solver1 factor1 format1 exact
           (mesh 1) [0; 1]%Z 1 None true fem1
           (backward_euler 1 fem1 (1 * 1 ^ 2)) []).
  - apply Exists_cons_tl. apply Exists_cons_hd. right. simpl. lia.
  - intros _. discriminate.
  - reflexivity.
  - apply (sp_add_backward_euler 1 fem1); reflexivity.
Defined.

Lemma assembly_called_once_witness :
  solver_calls
    (fst (diffusion unit with_sksparse Solver1 factor1 format1 exact
            (mesh 1) (PyList [0%Z]) 1 None true [])) = 1%nat.
Proof.
  apply (assembly_called_once unit with_sksparse Solver1 factor1 format1
           exact (mesh 1) (PyList [0%Z]) 1 None true []).
  intros _. discriminate.
Defined.

Lemma zero_time_solves_mass_system_witness :
  snd (diffusion unit no_modules Solver1 factor1 format1 exact
         (mesh 1) (PyList [0%Z]) 0 None false [])
  = rbind (factorize no_modules factor1 false (mass fem1))
      (fun f => solve f (indicator 1 [0%Z])).
Proof.
  apply (zero_time_solves_mass_system unit no_modules Solver1 factor1 format1
           exact (mesh 1) [0%Z] 0 None false fem1 []).
  - now left.
  - reflexivity.
  - reflexivity.
  - reflexivity.
  - reflexivity.
  - repeat constructor.
  - reflexivity.
  - reflexivity.
  - discriminate.
  - apply mesh_seed_in_range.
  - reflexivity.
  - reflexivity.
Defined.


End ExtraFacts.
